(** * Instascan: scan scheduling and camera activation

    A shallow embedding of [src/scanner.js]: the [ScanProvider] sampling
    loop (throttle counter, duplicate suppression, refractory timer), the
    [Scanner] facade with its activation state machine, the [Analyzer]
    that prepares a frame and reads the decoder's answer, and the part of
    the browser they run on (timers, animation frames, page visibility).

    JavaScript objects become records, mutation becomes state passing over
    one [World] record, [null]/[undefined] become [None], and the two task
    queues of the browser are explicit data.  Members that only restyle the
    [<video>] element ([mirror]) are left out. *)

From stdpp Require Import base gmap strings list.
From Stdlib Require Import QArith_base Qround.

Local Open Scope Z_scope.

(** ** Data *)

(** [Visibility.state()] of visibilityjs. *)
Inductive VisibilityState := visible | hidden | prerender.

(** The states named in [_createStateMachine]. *)
Inductive State := stopped | started | active | inactive.

(** The events (transitions) named in [_createStateMachine]. *)
Inductive FsmEvent := ev_start | ev_stop | ev_activate | ev_deactivate.

Global Instance VisibilityState_eq_dec : EqDecision VisibilityState.
Proof. solve_decision. Defined.
Global Instance State_eq_dec : EqDecision State.
Proof. solve_decision. Defined.
Global Instance FsmEvent_eq_dec : EqDecision FsmEvent.
Proof. solve_decision. Defined.

(** What [Analyzer.analyze] hands back when it is not [null]: the decoded
    text and the canvas, the latter represented by the data URL that
    [canvas.toDataURL('image/webp', 0.8)] would produce. *)
Record Analysis := { result : string; canvas : string }.

(** The object [_analyze] returns: [{ content: result }], with [image]
    present only when a truthy image was captured. *)
Record Payload := { content : string; image : option string }.

(** A camera handle.  [camera.start()] is asynchronous and may reject;
    [opens] says which. *)
Record Camera := { camId : nat; opens : bool }.

Inductive CameraCall := CameraStart (id : nat) | CameraStop (id : nat).

(** Events delivered through the [EventEmitter]. *)
Inductive Event :=
| scan_event (c : string) (img : option string)
| active_event
| inactive_event.

(** The closures this program hands to [setTimeout]. *)
Inductive Task :=
| ClearLastResult          (* () => { this._lastResult = null; } *)
| EmitScan (p : Payload)   (* () => { this._emitter.emit('scan', ...); } *)
| ActivateIfPossible.      (* () => { if (this._fsm.can('activate')) ... } *)

Record Timer := { tid : nat; due : Z; task : Task }.

Global Instance Payload_eq_dec : EqDecision Payload.
Proof. solve_decision. Defined.
Global Instance Event_eq_dec : EqDecision Event.
Proof. solve_decision. Defined.
Global Instance Task_eq_dec : EqDecision Task.
Proof. solve_decision. Defined.
Global Instance Timer_eq_dec : EqDecision Timer.
Proof. solve_decision. Defined.
Global Instance CameraCall_eq_dec : EqDecision CameraCall.
Proof. solve_decision. Defined.

(** Fields of a [ScanProvider] instance.  [refractoryTimeout] is
    [undefined] until the first detection. *)
Record scan_provider := {
  scanPeriod : Z;
  captureImage : bool;
  refractoryPeriod : Z;
  _frameCount : Z;
  _lastResult : option string;
  _active : bool;
  refractoryTimeout : option nat
}.

(** The [<video>] element as far as the scanner touches it. *)
Record Video := {
  srcObject : option nat;
  src : option string;
  classList : list string
}.

(** Everything the program reads or writes.

    - browser: clock, timer queue, pending animation-frame callbacks (the
      only callback ever registered is [() => this._scan()], so a count
      suffices), page visibility;
    - collaborators: the analyzer as an oracle ([analyzerFeed n] is what its
      [n]-th call returns) and a log of the calls made on cameras;
    - the scanner: its [ScanProvider], its own fields, [_fsm.current];
    - observations: the events emitted so far, and (ghost) every value
      [_fsm.current] has taken. *)
Record World := {
  now : Z;
  nextTimer : nat;
  timers : list Timer;
  rafQueue : nat;
  visibility : VisibilityState;
  analyzerFeed : nat → option Analysis;
  analyzerCalls : nat;
  cameraLog : list CameraCall;
  _scanner : scan_provider;
  video : Video;
  backgroundScan : bool;
  _continuous : bool;
  _camera : option Camera;
  current : State;
  history : list State;
  emitted : list Event
}.

(** Field updates. *)
Definition set_now v w := Build_World v (nextTimer w) (timers w) (rafQueue w) (visibility w)
  (analyzerFeed w) (analyzerCalls w) (cameraLog w) (_scanner w) (video w) (backgroundScan w)
  (_continuous w) (_camera w) (current w) (history w) (emitted w).
Definition set_nextTimer v w := Build_World (now w) v (timers w) (rafQueue w) (visibility w)
  (analyzerFeed w) (analyzerCalls w) (cameraLog w) (_scanner w) (video w) (backgroundScan w)
  (_continuous w) (_camera w) (current w) (history w) (emitted w).
Definition set_timers v w := Build_World (now w) (nextTimer w) v (rafQueue w) (visibility w)
  (analyzerFeed w) (analyzerCalls w) (cameraLog w) (_scanner w) (video w) (backgroundScan w)
  (_continuous w) (_camera w) (current w) (history w) (emitted w).
Definition set_rafQueue v w := Build_World (now w) (nextTimer w) (timers w) v (visibility w)
  (analyzerFeed w) (analyzerCalls w) (cameraLog w) (_scanner w) (video w) (backgroundScan w)
  (_continuous w) (_camera w) (current w) (history w) (emitted w).
Definition set_visibility v w := Build_World (now w) (nextTimer w) (timers w) (rafQueue w) v
  (analyzerFeed w) (analyzerCalls w) (cameraLog w) (_scanner w) (video w) (backgroundScan w)
  (_continuous w) (_camera w) (current w) (history w) (emitted w).
Definition set_analyzerCalls v w := Build_World (now w) (nextTimer w) (timers w) (rafQueue w)
  (visibility w) (analyzerFeed w) v (cameraLog w) (_scanner w) (video w) (backgroundScan w)
  (_continuous w) (_camera w) (current w) (history w) (emitted w).
Definition set_cameraLog v w := Build_World (now w) (nextTimer w) (timers w) (rafQueue w)
  (visibility w) (analyzerFeed w) (analyzerCalls w) v (_scanner w) (video w) (backgroundScan w)
  (_continuous w) (_camera w) (current w) (history w) (emitted w).
Definition set_scanner v w := Build_World (now w) (nextTimer w) (timers w) (rafQueue w)
  (visibility w) (analyzerFeed w) (analyzerCalls w) (cameraLog w) v (video w) (backgroundScan w)
  (_continuous w) (_camera w) (current w) (history w) (emitted w).
Definition set_video v w := Build_World (now w) (nextTimer w) (timers w) (rafQueue w)
  (visibility w) (analyzerFeed w) (analyzerCalls w) (cameraLog w) (_scanner w) v (backgroundScan w)
  (_continuous w) (_camera w) (current w) (history w) (emitted w).
Definition set_backgroundScan v w := Build_World (now w) (nextTimer w) (timers w) (rafQueue w)
  (visibility w) (analyzerFeed w) (analyzerCalls w) (cameraLog w) (_scanner w) (video w) v
  (_continuous w) (_camera w) (current w) (history w) (emitted w).
Definition set_continuous_field v w := Build_World (now w) (nextTimer w) (timers w) (rafQueue w)
  (visibility w) (analyzerFeed w) (analyzerCalls w) (cameraLog w) (_scanner w) (video w)
  (backgroundScan w) v (_camera w) (current w) (history w) (emitted w).
Definition set_camera v w := Build_World (now w) (nextTimer w) (timers w) (rafQueue w)
  (visibility w) (analyzerFeed w) (analyzerCalls w) (cameraLog w) (_scanner w) (video w)
  (backgroundScan w) (_continuous w) v (current w) (history w) (emitted w).
Definition set_emitted v w := Build_World (now w) (nextTimer w) (timers w) (rafQueue w)
  (visibility w) (analyzerFeed w) (analyzerCalls w) (cameraLog w) (_scanner w) (video w)
  (backgroundScan w) (_continuous w) (_camera w) (current w) (history w) v.

(** Assignment to [_fsm.current]; the ghost [history] records it. *)
Definition enter_state s w := Build_World (now w) (nextTimer w) (timers w) (rafQueue w)
  (visibility w) (analyzerFeed w) (analyzerCalls w) (cameraLog w) (_scanner w) (video w)
  (backgroundScan w) (_continuous w) (_camera w) s (history w ++ [s]) (emitted w).

Definition set_frameCount v (s : scan_provider) := Build_scan_provider (scanPeriod s)
  (captureImage s) (refractoryPeriod s) v (_lastResult s) (_active s) (refractoryTimeout s).
Definition set_lastResult v (s : scan_provider) := Build_scan_provider (scanPeriod s)
  (captureImage s) (refractoryPeriod s) (_frameCount s) v (_active s) (refractoryTimeout s).
Definition set_active v (s : scan_provider) := Build_scan_provider (scanPeriod s)
  (captureImage s) (refractoryPeriod s) (_frameCount s) (_lastResult s) v (refractoryTimeout s).
Definition set_refractoryTimeout v (s : scan_provider) := Build_scan_provider (scanPeriod s)
  (captureImage s) (refractoryPeriod s) (_frameCount s) (_lastResult s) (_active s) v.
Definition set_scanPeriod v (s : scan_provider) := Build_scan_provider v
  (captureImage s) (refractoryPeriod s) (_frameCount s) (_lastResult s) (_active s)
  (refractoryTimeout s).
Definition set_captureImage v (s : scan_provider) := Build_scan_provider (scanPeriod s)
  v (refractoryPeriod s) (_frameCount s) (_lastResult s) (_active s) (refractoryTimeout s).
Definition set_refractoryPeriod v (s : scan_provider) := Build_scan_provider (scanPeriod s)
  (captureImage s) v (_frameCount s) (_lastResult s) (_active s) (refractoryTimeout s).

(** ** Browser primitives *)

(** [setTimeout(task, delay)]: a fresh handle, due no earlier than [delay]
    from now (a negative delay counts as 0). *)
Definition setTimeout (k : Task) (delay : Z) (w : World) : nat * World :=
  let id := nextTimer w in
  (id, set_nextTimer (S id)
         (set_timers (timers w ++ [{| tid := id; due := now w + Z.max 0 delay; task := k |}]) w)).

(** The queue without the timer that [h] names; [undefined] names none. *)
Definition without (h : option nat) (l : list Timer) : list Timer :=
  match h with
  | None => l
  | Some id => filter (λ t, tid t ≠ id) l
  end.

(** [clearTimeout(handle)]; [clearTimeout(undefined)] does nothing. *)
Definition clearTimeout (h : option nat) (w : World) : World :=
  set_timers (without h (timers w)) w.

(** [requestAnimationFrame(() => this._scan())]. *)
Definition requestAnimationFrame (w : World) : World :=
  set_rafQueue (S (rafQueue w)) w.

(** [emitter.emit(...)] as seen by an outside listener. *)
Definition emit (e : Event) (w : World) : World :=
  set_emitted (emitted w ++ [e]) w.

(** ** Analyzer (collaborator) *)

Module Analyzer.
(** One call of [analyze()]: the oracle's next answer. *)
Definition analyze (w : World) : option Analysis * World :=
  (analyzerFeed w (analyzerCalls w), set_analyzerCalls (S (analyzerCalls w)) w).
End Analyzer.

(** ** ScanProvider *)

Module ScanProvider.

Definition start (w : World) : World :=
  requestAnimationFrame (set_scanner (set_active true (_scanner w)) w).

Definition stop (w : World) : World :=
  set_scanner (set_active false (_scanner w)) w.

(** [_analyze(skipDups)].  [!result] holds of the empty string;
    [result === this._lastResult] is only evaluated when [skipDups]. *)
Definition _analyze (skipDups : bool) (w : World) : option Payload * World :=
  let '(analysis, w) := Analyzer.analyze w in
  match analysis with
  | None => (None, w)
  | Some a =>
    if decide (result a = "") then (None, w)
    else if skipDups && bool_decide (Some (result a) = _lastResult (_scanner w))
    then (None, w)
    else
      let w := clearTimeout (refractoryTimeout (_scanner w)) w in
      let '(id, w) := setTimeout ClearLastResult (refractoryPeriod (_scanner w)) w in
      let w := set_scanner (set_refractoryTimeout (Some id) (_scanner w)) w in
      let img := if captureImage (_scanner w) then Some (canvas a) else None in
      let w := set_scanner (set_lastResult (Some (result a)) (_scanner w)) w in
      let payload :=
        {| content := result a;
           image := match img with
                    | Some s => if decide (s = "") then None else Some s
                    | None => None
                    end |} in
      (Some payload, w)
  end.

Definition scan (w : World) : option Payload * World := _analyze false w.

(** [_scan()], one tick of the loop.  [_frameCount] is a JavaScript number;
    it is counted here in [Z], which is what [++] does to it as long as it
    stays below 2^53. *)
Definition _scan (w : World) : World :=
  if negb (_active (_scanner w)) then w
  else
    let w := requestAnimationFrame w in
    let n := _frameCount (_scanner w) + 1 in
    let w := set_scanner (set_frameCount n (_scanner w)) w in
    if decide (n ≠ scanPeriod (_scanner w)) then w
    else
      let w := set_scanner (set_frameCount 0 (_scanner w)) w in
      let '(r, w) := _analyze true w in
      match r with
      | Some p => snd (setTimeout (EmitScan p) 0 w)
      | None => w
      end.

End ScanProvider.

(** ** Promises and errors *)

Inductive Error :=
| JsError (msg : string)                       (* throw new Error(msg) *)
| StreamRefused (id : nat)                     (* camera.start() rejected *)
| InvalidTransition (e : FsmEvent) (s : State). (* raised by the state machine *)

(** How an awaited call settles. *)
Inductive Outcome (A : Type) := Resolved (a : A) | Rejected (e : Error).
Arguments Resolved {A} a.
Arguments Rejected {A} e.

(** An [async] computation, run to completion on the world: what is awaited
    settles before anything else happens, one transition at a time. *)
Definition Act (A : Type) : Type := World → Outcome A * World.

Global Instance Act_ret : MRet Act := λ A a w, (Resolved a, w).
Global Instance Act_bind : MBind Act := λ A B k m w,
  match m w with
  | (Resolved a, w') => k a w'
  | (Rejected e, w') => (Rejected e, w')
  end.

Definition throw {A} (e : Error) : Act A := λ w, (Rejected e, w).
Definition perform (f : World → World) : Act unit := λ w, (Resolved tt, f w).

(** ** JavaScript objects as receivers *)

Inductive JsVal := JUndefined | JBool (b : bool) | JString (s : string) | JFunction.

Definition truthy (v : JsVal) : bool :=
  match v with
  | JUndefined => false
  | JBool b => b
  | JString s => negb (bool_decide (s = ""))
  | JFunction => true
  end.

(** Property read [o.k]: [undefined] when [o] has no such property. *)
Definition get (o : gmap string JsVal) (k : string) : JsVal := default JUndefined (o !! k).

(** ** The state-machine library

    [require('fsm-as-promised')] is a dependency whose code is not among
    the sources.  Its configuration types below follow the object that
    [_createStateMachine] builds; its behaviour is modelled from the spec. *)

Module StateMachine.

(** One entry of the [events] array given to [StateMachine.create].  A
    [condition] is an ordinary [function]: it receives its [this] from
    whoever calls it. *)
Record EventSpec := {
  name : FsmEvent;
  from : list State;
  to : list State;
  condition : option (gmap string JsVal → World → State)
}.

(** The [callbacks] object, indexed by the state in the callback's name
    ([onleaveX], [onenterX], [onenteredX]); the argument is [options.args[0]]. *)
Record Callbacks := {
  onleave : State → Act unit;
  onenter : State → option Camera → Act unit;
  onentered : State → option Camera → Act unit
}.

Definition state_name (s : State) : string :=
  match s with
  | stopped => "stopped" | started => "started"
  | active => "active" | inactive => "inactive"
  end.

(** The argument of [StateMachine.create]. *)
Record Config := {
  initial : State;
  events : list EventSpec;
  callbacks : Callbacks
}.

Definition spec_of (table : list EventSpec) (e : FsmEvent) : option EventSpec :=
  head (filter (λ s, name s = e) table).

(** Modelled from the spec: [fsm.can(event)], whether the event is legal in
    the current state, that is whether the state is among its [from]
    (section 4.2, column From). *)
Definition can (table : list EventSpec) (e : FsmEvent) (w : World) : bool :=
  match spec_of table e with
  | Some s => bool_decide (current w ∈ from s)
  | None => false
  end.

(** Modelled from the spec: the machine object that [StateMachine.create]
    returns (the fsm-as-promised package is not part of the sources).  Its
    members are the ones the scanner uses on [this._fsm]: [current], [can]
    and one method per event.  The scanner is never handed to the library,
    so the object holds nothing of it. *)
Definition machine_object (w : World) : gmap string JsVal :=
  {[ "current" := JString (state_name (current w));
     "can" := JFunction;
     "start" := JFunction; "stop" := JFunction;
     "activate" := JFunction; "deactivate" := JFunction ]}.

(** Modelled from the spec: firing an event of the machine (the
    fsm-as-promised package is not part of the sources).  Section 7: an
    event that is not legal in the current state is rejected and leaves the
    state alone.  Section 4.2: the exit action of the state left runs, then
    the entry action of the state reached, then the state changes, then the
    entered action; a conditional event takes its target from its
    [condition], called on the machine object.  Section 7 and scenario C: a
    callback that fails rejects the event and the machine is back in the
    state the event started from. *)
Definition fire (table : list EventSpec) (cbs : Callbacks)
    (e : FsmEvent) (arg : option Camera) : Act unit := λ w,
  match spec_of table e with
  | None => throw (InvalidTransition e (current w)) w
  | Some s =>
    let origin := current w in
    if bool_decide (origin ∈ from s) then
      let target :=
        match condition s with
        | Some c => c (machine_object w) w
        | None => default origin (head (to s))
        end in
      match (onleave cbs origin ;;
             onenter cbs target arg ;;
             perform (enter_state target) ;;
             onentered cbs target arg) w with
      | (Resolved _, w') => (Resolved tt, w')
      | (Rejected err, w') =>
        (Rejected err, if decide (current w' = origin) then w' else enter_state origin w')
      end
    else throw (InvalidTransition e origin) w
  end.

End StateMachine.

(** ** Scanner *)

Module Scanner.
Import StateMachine.

(** The [condition] of [activate].  It is written with [function], not as
    an arrow, so [this.backgroundScan] is read off the receiver. *)
Definition activate_condition (this : gmap string JsVal) (w : World) : State :=
  if bool_decide (visibility w = visible) || truthy (get this "backgroundScan")
  then active else inactive.

(** The [events] array of [_createStateMachine]. *)
Definition fsm_events : list EventSpec := [
  {| name := ev_start; from := [stopped]; to := [started]; condition := None |};
  {| name := ev_stop; from := [started; active; inactive]; to := [stopped];
     condition := None |};
  {| name := ev_activate; from := [started; inactive]; to := [active; inactive];
     condition := Some activate_condition |};
  {| name := ev_deactivate; from := [started; active]; to := [inactive];
     condition := None |}
].

(** [this._fsm.can(event)]. *)
Definition can (e : FsmEvent) (w : World) : bool := StateMachine.can fsm_events e w.

Definition classList_remove (c : string) (v : Video) : Video :=
  {| srcObject := srcObject v; src := src v; classList := filter (λ x, x ≠ c) (classList v) |}.
Definition classList_add (c : string) (v : Video) : Video :=
  {| srcObject := srcObject v; src := src v;
     classList := if decide (c ∈ classList v) then classList v else classList v ++ [c] |}.

(** [this.emit('active')] and [this.emit('inactive')], with the listeners
    the constructor installs. *)
Definition emit_active (w : World) : World :=
  emit active_event (set_video (classList_add "active" (classList_remove "inactive" (video w))) w).
Definition emit_inactive (w : World) : World :=
  emit inactive_event (set_video (classList_add "inactive" (classList_remove "active" (video w))) w).

Definition _enableScan (camera : option Camera) : Act unit := λ w,
  let cam := match camera with Some c => Some c | None => _camera w end in
  let w := set_camera cam w in
  match cam with
  | None => throw (JsError "Camera is not defined.") w
  | Some c =>
    let w := set_cameraLog (cameraLog w ++ [CameraStart (camId c)]) w in
    if opens c then
      let w := set_video {| srcObject := Some (camId c); src := src (video w);
                            classList := classList (video w) |} w in
      (Resolved tt, if _continuous w then ScanProvider.start w else w)
    else throw (StreamRefused (camId c)) w
  end.

Definition _disableScan (w : World) : World :=
  let w := set_video {| srcObject := srcObject (video w); src := Some "";
                        classList := classList (video w) |} w in
  let w := ScanProvider.stop w in
  match _camera w with
  | Some c => set_cameraLog (cameraLog w ++ [CameraStop (camId c)]) w
  | None => w
  end.

Definition onenteractive (arg : option Camera) : Act unit :=
  _enableScan arg ;; perform emit_active.

Definition onleaveactive : Act unit :=
  perform (λ w, emit_inactive (_disableScan w)).

(** The callbacks that do not themselves fire an event. *)
Definition plain_callbacks : Callbacks := {|
  onleave := λ s, if decide (s = active) then onleaveactive else mret tt;
  onenter := λ s arg, if decide (s = active) then onenteractive arg else mret tt;
  onentered := λ _ _, mret tt
|}.

(** [this._fsm.activate(...)] as issued from [onenteredstarted]: its
    targets are [active] and [inactive], so [onenteredstarted] cannot run
    inside it. *)
Definition activate_from_started (arg : option Camera) : Act unit :=
  fire fsm_events plain_callbacks ev_activate arg.

(** The [callbacks] object of [_createStateMachine]. *)
Definition fsm_callbacks : Callbacks := {|
  onleave := onleave plain_callbacks;
  onenter := onenter plain_callbacks;
  onentered := λ s arg, if decide (s = started) then activate_from_started arg else mret tt
|}.

Definition _createStateMachine : Config := {|
  initial := stopped;
  events := fsm_events;
  callbacks := fsm_callbacks
|}.

(** [this._fsm.<event>(arg)]. *)
Definition fsm (e : FsmEvent) (arg : option Camera) : Act unit :=
  fire (events _createStateMachine) (callbacks _createStateMachine) e arg.

Definition start (camera : option Camera) : Act unit := λ w,
  if can ev_start w then fsm ev_start camera w
  else (fsm ev_stop None ;; fsm ev_start camera) w.

Definition stop : Act unit := λ w,
  if can ev_stop w then fsm ev_stop None w else (Resolved tt, w).

Definition scan (w : World) : option Payload * World := ScanProvider.scan w.

Definition set_captureImage (capture : bool) (w : World) : World :=
  set_scanner (set_captureImage capture (_scanner w)) w.
Definition set_scanPeriod (period : Z) (w : World) : World :=
  set_scanner (set_scanPeriod period (_scanner w)) w.
Definition set_refractoryPeriod (period : Z) (w : World) : World :=
  set_scanner (set_refractoryPeriod period (_scanner w)) w.

(** [set continuous(continuous)]. *)
Definition set_continuous (continuous : bool) (w : World) : World :=
  let w := set_continuous_field continuous w in
  if continuous && bool_decide (current w = active)
  then ScanProvider.start w
  else ScanProvider.stop w.

(** The listener given to [Visibility.change]. *)
Definition on_visibility (state : VisibilityState) (w : World) : World :=
  if decide (state = visible) then snd (setTimeout ActivateIfPossible 0 w)
  else if negb (backgroundScan w) && can ev_deactivate w
       then snd (fsm ev_deactivate None w)
       else w.

(** The options object of the constructor; [None] is an absent option. *)
Record Opts := {
  opt_video : option string;   (* tagName of the element supplied *)
  opt_backgroundScan : option bool;
  opt_continuous : option bool;
  opt_captureImage : option bool;
  opt_scanPeriod : option Z;
  opt_refractoryPeriod : option Z
}.

Definition _configureVideo (opts : Opts) : Outcome Video :=
  match opt_video opts with
  | Some tag =>
    if decide (tag ≠ "VIDEO") then Rejected (JsError "Video must be a <video> element.")
    else Resolved {| srcObject := None; src := None; classList := [] |}
  | None => Resolved {| srcObject := None; src := None; classList := [] |}
  end.

(** [x || d] on an optional number: 0 is falsy. *)
Definition number_or (x : option Z) (d : Z) : Z :=
  match x with
  | Some n => if decide (n = 0) then d else n
  | None => d
  end.

(** [new Scanner(opts)] on a page whose visibility is [vis] and whose
    analyzer will answer [feed]. *)
Definition constructor (opts : Opts) (vis : VisibilityState)
    (feed : nat → option Analysis) : Outcome World :=
  match _configureVideo opts with
  | Rejected e => Rejected e
  | Resolved v =>
    Resolved (emit_inactive {|
      now := 0; nextTimer := 0%nat; timers := []; rafQueue := 0%nat;
      visibility := vis; analyzerFeed := feed; analyzerCalls := 0%nat; cameraLog := [];
      _scanner := {| scanPeriod := number_or (opt_scanPeriod opts) 1;
                     captureImage := default false (opt_captureImage opts);
                     refractoryPeriod := number_or (opt_refractoryPeriod opts) (5 * 1000);
                     _frameCount := 0; _lastResult := None; _active := false;
                     refractoryTimeout := None |};
      video := v;
      backgroundScan := default true (opt_backgroundScan opts);
      _continuous := default true (opt_continuous opts);
      _camera := None;
      current := initial _createStateMachine;
      history := [initial _createStateMachine];
      emitted := [] |})
  end.

End Scanner.

(** ** The event loop *)

(** Running a timer's closure. *)
Definition run_task (k : Task) (w : World) : World :=
  match k with
  | ClearLastResult => set_scanner (set_lastResult None (_scanner w)) w
  | EmitScan p => emit (scan_event (content p) (image p)) w
  | ActivateIfPossible =>
    if Scanner.can ev_activate w then snd (Scanner.fsm ev_activate None w) else w
  end.

(** Timers run in order of their due time, and in order of creation among
    equals. *)
Fixpoint insert_by_due (t : Timer) (l : list Timer) : list Timer :=
  match l with
  | [] => [t]
  | u :: l' => if decide (due t ≤ due u) then t :: l else u :: insert_by_due t l'
  end.

Definition by_due (l : list Timer) : list Timer := foldr insert_by_due [] l.

(** [dt] milliseconds pass and every timer that has come due runs.  No timer
    closure of this program sets or clears a timer, so the due ones can be
    taken off the queue together. *)
Definition elapse (dt : nat) (w : World) : World :=
  let t := now w + Z.of_nat dt in
  let w := set_now t w in
  let ready := by_due (filter (λ x, due x ≤ t) (timers w)) in
  let w := set_timers (filter (λ x, ¬ due x ≤ t) (timers w)) w in
  foldl (λ w x, run_task (task x) w) w ready.

(** One animation frame: the callbacks registered so far run; those they
    register in turn wait for the next frame. *)
Definition animationFrame (w : World) : World :=
  Nat.iter (rafQueue w) ScanProvider._scan (set_rafQueue 0%nat w).

(** What can happen to a scanner: the browser's frames, timers and
    visibility changes, and calls of its public members. *)
Inductive Op :=
| Frame
| Elapse (dt : nat)
| VisibilityChange (v : VisibilityState)
| Start (camera : option Camera)
| Stop
| Scan
| SetContinuous (b : bool)
| SetCaptureImage (b : bool)
| SetScanPeriod (n : Z)
| SetRefractoryPeriod (n : Z)
| SetBackgroundScan (b : bool).

Definition step (o : Op) (w : World) : World :=
  match o with
  | Frame => animationFrame w
  | Elapse dt => elapse dt w
  | VisibilityChange v => Scanner.on_visibility v (set_visibility v w)
  | Start camera => snd (Scanner.start camera w)
  | Stop => snd (Scanner.stop w)
  | Scan => snd (Scanner.scan w)
  | SetContinuous b => Scanner.set_continuous b w
  | SetCaptureImage b => Scanner.set_captureImage b w
  | SetScanPeriod n => Scanner.set_scanPeriod n w
  | SetRefractoryPeriod n => Scanner.set_refractoryPeriod n w
  | SetBackgroundScan b => set_backgroundScan b w
  end.

Definition run (ops : list Op) (w : World) : World := foldl (λ w o, step o w) w ops.

(** ** Vocabulary of the properties *)

(** The sampling loop on its own: single ticks ([_scan] calls) and the
    passing of time. *)
Inductive LoopStep := Tick | Wait (dt : nat).

Definition loop_step (s : LoopStep) (w : World) : World :=
  match s with
  | Tick => ScanProvider._scan w
  | Wait dt => elapse dt w
  end.

Definition run_loop (steps : list LoopStep) (w : World) : World :=
  foldl (λ w s, loop_step s w) w steps.

(** Milliseconds that pass during [steps]. *)
Fixpoint waited (steps : list LoopStep) : nat :=
  match steps with
  | [] => 0
  | Tick :: l => waited l
  | Wait dt :: l => dt + waited l
  end.

Definition is_scan_of (c : string) (e : Event) : bool :=
  match e with
  | scan_event c' _ => bool_decide (c' = c)
  | _ => false
  end.

Definition emits (c : string) (t : Timer) : bool :=
  match task t with
  | EmitScan p => bool_decide (content p = c)
  | _ => false
  end.

Definition clears (t : Timer) : bool :=
  match task t with
  | ClearLastResult => true
  | _ => false
  end.

(** [scan] events for content [c] that a run has produced: those already
    delivered and those whose delivery is queued. *)
Definition produced (c : string) (w : World) : nat :=
  (length (filter (λ e, is_scan_of c e) (emitted w))
   + length (filter (λ t, emits c t) (timers w)))%nat.

(** The only pending timer that clears [_lastResult] is the one
    [refractoryTimeout] names. *)
Definition refractory_wf (w : World) : Prop :=
  ∀ t, t ∈ timers w → task t = ClearLastResult →
       refractoryTimeout (_scanner w) = Some (tid t).

(** One frame followed by [dt] milliseconds. *)
Definition frame_then (dt : nat) (w : World) : World := elapse dt (animationFrame w).

(** The events delivered between two worlds of one run. *)
Definition delivered (before after : World) : list Event :=
  drop (length (emitted before)) (emitted after).

(** Changes of [_fsm.current], oldest first. *)
Fixpoint transitions (h : list State) : list (State * State) :=
  match h with
  | a :: t => match t with
              | b :: _ => (a, b) :: transitions t
              | [] => []
              end
  | [] => []
  end.

Definition entries_into (s : State) (h : list State) : nat :=
  length (filter (λ p, p.1 ≠ s ∧ p.2 = s) (transitions h)).

Definition exits_from (s : State) (h : list State) : nat :=
  length (filter (λ p, p.1 = s ∧ p.2 ≠ s) (transitions h)).

Definition inactive_emissions (w : World) : nat :=
  length (filter (λ e, e = inactive_event) (emitted w)).

(** The facts about the state machine that the run keeps true. *)
Definition fsm_consistent (w : World) : Prop :=
  last (history w) = Some (current w)
  ∧ inactive_emissions w = S (exits_from active (history w)).

(** ** Sample data *)

Definition no_opts : Scanner.Opts := {|
  Scanner.opt_video := None; Scanner.opt_backgroundScan := None;
  Scanner.opt_continuous := None; Scanner.opt_captureImage := None;
  Scanner.opt_scanPeriod := None; Scanner.opt_refractoryPeriod := None
|}.

Definition every (n : Z) : Scanner.Opts := {|
  Scanner.opt_video := None; Scanner.opt_backgroundScan := None;
  Scanner.opt_continuous := None; Scanner.opt_captureImage := None;
  Scanner.opt_scanPeriod := Some n; Scanner.opt_refractoryPeriod := None
|}.


Definition always (c : string) : nat → option Analysis :=
  λ _, Some {| result := c; canvas := "data:image/webp;base64,UklGRg" |}.

(** [new Scanner(opts)] when it does not throw. *)
Definition scanner_on (opts : Scanner.Opts) (vis : VisibilityState)
    (feed : nat → option Analysis) : World :=
  match Scanner.constructor opts vis feed with
  | Resolved w => w
  | Rejected _ =>
    {| now := 0; nextTimer := 0%nat; timers := []; rafQueue := 0%nat; visibility := vis;
       analyzerFeed := feed; analyzerCalls := 0%nat; cameraLog := [];
       _scanner := {| scanPeriod := 1; captureImage := false; refractoryPeriod := 5000;
                      _frameCount := 0; _lastResult := None; _active := false;
                      refractoryTimeout := None |};
       video := {| srcObject := None; src := None; classList := [] |};
       backgroundScan := true; _continuous := true; _camera := None;
       current := stopped; history := [stopped]; emitted := [] |}
  end.

Definition front_camera : Camera := {| camId := 1; opens := true |}.
Definition rear_camera : Camera := {| camId := 2; opens := true |}.
Definition broken_camera : Camera := {| camId := 3; opens := false |}.

(** Scenario A: a scheduler that samples every third tick, looking at a
    steady ["ABC"], just started. *)
Definition scenario_A : World :=
  ScanProvider.start (scanner_on (every 3) visible (always "ABC")).

(** Scenario A after some ticks, by what differs from its start. *)
Definition scenario_A_at (t : Z) (count : Z) (last : option string) (handle : option nat)
    (next : nat) (queue : list Timer) (calls : nat) (log : list Event) : World :=
  set_now t (set_nextTimer next (set_timers queue (set_analyzerCalls calls (set_emitted log
    (set_scanner
       (set_frameCount count (set_lastResult last (set_refractoryTimeout handle
          (_scanner scenario_A))))
       scenario_A))))).

Definition clear_at (id : nat) (t : Z) : Timer :=
  {| tid := id; due := t; task := ClearLastResult |}.
Definition emit_at (id : nat) (t : Z) : Timer :=
  {| tid := id; due := t; task := EmitScan {| content := "ABC"; image := None |} |}.

(** ** More vocabulary *)

(** What a detection looks like to the caller of [_analyze]. *)
Definition payload_of (capture : bool) (a : Analysis) : Payload :=
  {| content := result a;
     image := if capture then (if decide (canvas a = "") then None else Some (canvas a))
              else None |}.

(** The calls on cameras that leaving [active] makes. *)
Definition release_calls (w : World) : list CameraCall :=
  match _camera w with
  | Some c => [CameraStop (camId c)]
  | None => []
  end.

Definition scans_delivered (c : string) (w : World) : nat :=
  length (filter (λ e, is_scan_of c e) (emitted w)).

(** Inside the refractory window that the timer [t] closes: [c] is the
    stored content, [t] is the handle the scheduler remembers and the only
    pending timer that clears the content, and [t] is not due yet. *)
Definition in_window (c : string) (t : Timer) (w : World) : Prop :=
  _lastResult (_scanner w) = Some c
  ∧ refractoryTimeout (_scanner w) = Some (tid t)
  ∧ filter (λ x, clears x) (timers w) = [t]
  ∧ now w < due t.

(** ** The Analyzer class

    [Analyzer.analyze] as the source has it, on the state it reads and
    writes.  The scheduler's properties use the oracle above in its place;
    the properties of the class itself are stated on this module. *)

Module AnalyzerClass.

(** One call that [ZXing._decode_qr] makes on [decodeCallback]: [bytes] is
    what [HEAPU8] holds from [ptr] to [ptr + len] when the call is made. *)
Record Call := { bytes : list Z; resultIndex : Z; resultCount : Z }.

(** What the page and the decoder supply to one [analyze()]: the pointer
    [ZXing._resize] would return, the bytes of
    [getImageData(0, 0, sensorWidth, sensorHeight).data], and the decoder
    itself, which reads the heap and answers with the heap it leaves, the
    calls it makes on the callback, and its return value; and what
    [toDataURL] would give for the canvas. *)
Record Host := {
  resize : Z → Z → nat;
  data : list Z;
  decode_qr : list Z → list Z * list Call * Z;
  toDataURL : string
}.

(** Fields of an [Analyzer], with [ZXing.HEAPU8] and the page-global
    [window.zxDecodeResult] it works through. *)
Record analyzer := {
  videoWidth : Z;
  videoHeight : Z;
  imageBuffer : option nat;
  sensorLeft : option Z;
  sensorTop : option Z;
  sensorWidth : option Z;
  sensorHeight : option Z;
  canvasWidth : option Z;
  canvasHeight : option Z;
  HEAPU8 : list Z;
  zxDecodeResult : option string
}.

(** [String.fromCharCode.apply(null, bytes)]. *)
Definition fromCharCode (bytes : list Z) : string :=
  String.string_of_list_ascii (map (λ b, Ascii.ascii_of_N (Z.to_N b)) bytes).

(** [s += str] on a variable that may still be [undefined]. *)
Definition append_to (s : option string) (str : string) : string :=
  match s with
  | Some s => s +:+ str
  | None => "undefined" +:+ str
  end.

(** The function registered as [decodeCallback]. *)
Definition decodeCallback (c : Call) (zx : option string) : option string :=
  let str := fromCharCode (bytes c) in
  let zx := if decide (resultIndex c = 0) then Some "" else zx in
  Some (append_to zx str).

(** [Math.trunc((r + g + b) / 3)]. *)
Definition gray (r g b : Z) : Z := Z.quot (r + g + b) 3.

(** A store into a [Uint8Array]. *)
Definition Uint8 (v : Z) : Z := v `mod` 256.

(** The loop over [data]: [i] advances by four, [j] by one.  A channel read
    past the end is [undefined], the sum is then [NaN] and 0 is stored; a
    store past the end of the heap is dropped. *)
Fixpoint grayscale (data : list Z) (j : nat) (heap : list Z) : list Z :=
  match data with
  | [] => heap
  | r :: t1 =>
    match t1 with
    | g :: t2 =>
      match t2 with
      | b :: t3 =>
        match t3 with
        | _ :: rest => grayscale rest (S j) (<[j := Uint8 (gray r g b)]> heap)
        | [] => <[j := Uint8 (gray r g b)]> heap
        end
      | [] => <[j := 0]> heap
      end
    | [] => <[j := 0]> heap
    end
  end.

(** [Math.floor((a / 2) - (b / 2))]. *)
Definition centre (a b : Z) : Z :=
  Qfloor (Qminus (Qdiv (inject_Z a) (inject_Z 2)) (Qdiv (inject_Z b) (inject_Z 2))).

(** [analyze()]. *)
Definition analyze (h : Host) (a : analyzer) : option Analysis * analyzer :=
  if decide (videoWidth a = 0) then (None, a)
  else
    match imageBuffer a with
    | None | Some O =>
      let sw := videoWidth a in
      let sh := videoHeight a in
      (None,
       {| videoWidth := videoWidth a; videoHeight := videoHeight a;
          imageBuffer := Some (resize h sw sh);
          sensorLeft := Some (centre (videoWidth a) sw);
          sensorTop := Some (centre (videoHeight a) sh);
          sensorWidth := Some sw; sensorHeight := Some sh;
          canvasWidth := Some sw; canvasHeight := Some sh;
          HEAPU8 := HEAPU8 a; zxDecodeResult := zxDecodeResult a |})
    | Some (S _ as p) =>
      let heap := grayscale (data h) p (HEAPU8 a) in
      let '(heap, calls, err) := decode_qr h heap in
      let zx := foldl (λ zx c, decodeCallback c zx) (zxDecodeResult a) calls in
      let a := {| videoWidth := videoWidth a; videoHeight := videoHeight a;
                  imageBuffer := imageBuffer a;
                  sensorLeft := sensorLeft a; sensorTop := sensorTop a;
                  sensorWidth := sensorWidth a; sensorHeight := sensorHeight a;
                  canvasWidth := canvasWidth a; canvasHeight := canvasHeight a;
                  HEAPU8 := heap; zxDecodeResult := zx |} in
      if decide (err ≠ 0) then (None, a)
      else
        match zx with
        | Some result => (Some {| result := result; canvas := toDataURL h |}, a)
        | None => (None, a)
        end
    end.

(** A two-pixel frame and a decoder that answers with the given calls. *)
Definition host_with (calls : list Call) (err : Z) : Host :=
  {| resize := λ _ _, 1%nat;
     data := [255; 0; 0; 255; 10; 20; 31; 255];
     decode_qr := λ heap, (heap, calls, err);
     toDataURL := "data:image/webp" |}.

Definition analyzer_ready (zx : option string) : analyzer :=
  {| videoWidth := 2; videoHeight := 1; imageBuffer := Some 1%nat;
     sensorLeft := Some 0; sensorTop := Some 0;
     sensorWidth := Some 2; sensorHeight := Some 1;
     canvasWidth := Some 2; canvasHeight := Some 1;
     HEAPU8 := [0; 0; 0; 0]; zxDecodeResult := zx |}.

Definition call (bs : list Z) (i n : Z) : Call :=
  {| bytes := bs; resultIndex := i; resultCount := n |}.

End AnalyzerClass.

(** ** What holds between two operations *)

(** [active] and [inactive] events, as opposed to [scan] events. *)
Definition is_status (e : Event) : bool :=
  match e with
  | scan_event _ _ => false
  | _ => true
  end.

Definition status_events (w : World) : list Event :=
  filter (λ e, is_status e) (emitted w).

(** [inactive], [active], [inactive], ... *)
Definition alternation (n : nat) : list Event :=
  (λ i, if Nat.even i then inactive_event else active_event) <$> seq 0 n.

(** The sampling loop is switched on exactly in [active] with continuous
    mode set. *)
Definition scheduler_follows_state (w : World) : Prop :=
  _active (_scanner w) = _continuous w && bool_decide (current w = active).

(** There has been an [active] or [inactive] event, these events alternate,
    the last one names the side the machine is on, and so does the class of
    the video element. *)
Definition display_follows_state (w : World) : Prop :=
  status_events w ≠ []
  ∧ status_events w = alternation (length (status_events w))
  ∧ Nat.even (length (status_events w)) = bool_decide (current w = active)
  ∧ classList (video w) = [if bool_decide (current w = active) then "active" else "inactive"].

(** In [active] the recorded camera is open, attached to the video element
    and the last one a call was made on; outside [active] the last call on
    a camera, if any, was a [stop()] or a [start()] that was refused. *)
Definition camera_follows_state (w : World) : Prop :=
  if bool_decide (current w = active) then
    ∃ c, _camera w = Some c ∧ opens c = true
         ∧ srcObject (video w) = Some (camId c)
         ∧ last (cameraLog w) = Some (CameraStart (camId c))
  else
    last (cameraLog w) = None
    ∨ (∃ id, last (cameraLog w) = Some (CameraStop id))
    ∨ (∃ c, _camera w = Some c ∧ opens c = false
            ∧ last (cameraLog w) = Some (CameraStart (camId c))).

Definition settled (w : World) : Prop :=
  scheduler_follows_state w ∧ display_follows_state w ∧ camera_follows_state w.

(** What [settled] looks at. *)
Definition control (w : World)
  : State * bool * bool * option Camera * list CameraCall * Video * list Event :=
  (current w, _continuous w, _active (_scanner w), _camera w, cameraLog w, video w,
   status_events w).

(** A stored content always has its clearing timer: with nothing stored no
    timer that clears is pending; with a content stored exactly one is, the
    one [refractoryTimeout] names. *)
Definition dedup_paired (w : World) : Prop :=
  match _lastResult (_scanner w) with
  | None => filter (λ x, clears x) (timers w) = []
  | Some c =>
    c ≠ "" ∧ ∃ t, filter (λ x, clears x) (timers w) = [t]
                  ∧ refractoryTimeout (_scanner w) = Some (tid t)
  end.

(** An inactive scanner without a camera, on a visible page. *)
Definition waiting_without_camera (log : list CameraCall) (w : World) : Prop :=
  current w = inactive ∧ _camera w = None ∧ cameraLog w = log ∧ visibility w = visible.

(** A scanner suspended while the page was hidden, the page now visible:
    inactive, its camera [c] recorded, the loop off. *)
Definition suspended (c : Camera) (cont : bool) (log : list CameraCall) (w : World) : Prop :=
  visibility w = visible ∧ _camera w = Some c ∧ _continuous w = cont
  ∧ current w = inactive ∧ cameraLog w = log ∧ _active (_scanner w) = false.

(** The same scanner back in [active] on camera [c]. *)
Definition resumed (c : Camera) (cont : bool) (log : list CameraCall) (w : World) : Prop :=
  visibility w = visible ∧ _camera w = Some c ∧ _continuous w = cont
  ∧ current w = active ∧ cameraLog w = log ++ [CameraStart (camId c)]
  ∧ _active (_scanner w) = cont ∧ srcObject (video w) = Some (camId c).

(** * Properties *)

Import Scanner.

(** Case analysis along the branches of [_analyze] and [_scan]. *)
Ltac scan_cases :=
  unfold ScanProvider.scan, ScanProvider._scan, ScanProvider._analyze, Analyzer.analyze;
  simpl;
  repeat (case_decide || case_match || simplify_eq/=).

(** Case analysis on what the state machine looks at: visibility,
    continuous mode, the recorded camera, the current state. *)
Ltac by_cases_of w :=
  destruct w as [? ? ? ? [] ? ? ? ? ? ? [] [[? []]|] [] ? ?].

Ltac settle_decisions :=
  repeat first [rewrite decide_True by lia | rewrite decide_False by lia].

(** ** The scheduler's switch *)

Lemma stop_stop (w : World) : ScanProvider.stop (ScanProvider.stop w) = ScanProvider.stop w.
Proof. reflexivity. Qed.

Lemma stop_when_stopped (w : World) : _active (_scanner w) = false → ScanProvider.stop w = w.
Proof.
  destruct w as [? ? ? ? ? ? ? ? [? ? ? ? ? act ?] ? ? ? ? ? ? ?]; simpl.
  intros ->. reflexivity.
Qed.

(** A tick of a running scheduler registers the next tick and stays running. *)
Lemma scan_running (w : World) :
  _active (_scanner w) = true →
  rafQueue (ScanProvider._scan w) = S (rafQueue w)
  ∧ _active (_scanner (ScanProvider._scan w)) = true.
Proof. intros Hact. unfold ScanProvider._scan. rewrite Hact. scan_cases; auto. Qed.

Lemma scan_idle (w : World) : _active (_scanner w) = false → ScanProvider._scan w = w.
Proof. intros Hact. unfold ScanProvider._scan. by rewrite Hact. Qed.

Lemma iter_scan_running (n : nat) (w : World) :
  _active (_scanner w) = true →
  rafQueue (Nat.iter n ScanProvider._scan w) = (n + rafQueue w)%nat
  ∧ _active (_scanner (Nat.iter n ScanProvider._scan w)) = true.
Proof.
  intros Hact. induction n as [|n [IHq IHa]]; simpl; [done|].
  destruct (scan_running _ IHa) as [-> ->]. rewrite IHq. done.
Qed.

(** A frame is a run of ticks, one per registered callback. *)
Lemma frame_is_ticks (w : World) :
  animationFrame w = run_loop (replicate (rafQueue w) Tick) (set_rafQueue 0%nat w).
Proof.
  unfold animationFrame. generalize (set_rafQueue 0%nat w). generalize (rafQueue w).
  intros n. induction n as [|n IH]; intros w'; [done|].
  rewrite Nat.iter_succ_r. simpl. apply IH.
Qed.

(** C6 (amended).  [ScanProvider.start] has no guard for a scheduler that
    is already running: every call sets the running flag and registers one
    more tick callback.  After [start(); start()] a frame runs every
    registered tick and each of them registers itself again, so the extra
    loop stays.  [stop()] is idempotent, and on a scheduler that is not
    running it changes nothing. *)
Theorem start_is_not_guarded (w : World) :
  ScanProvider.start (ScanProvider.start w)
  = set_rafQueue (S (S (rafQueue w))) (set_scanner (set_active true (_scanner w)) w)
  ∧ animationFrame (ScanProvider.start (ScanProvider.start w))
    = Nat.iter (S (S (rafQueue w))) ScanProvider._scan
        (set_rafQueue 0%nat (set_scanner (set_active true (_scanner w)) w))
  ∧ rafQueue (animationFrame (ScanProvider.start (ScanProvider.start w)))
    = S (S (rafQueue w))
  ∧ ScanProvider.stop (ScanProvider.stop w) = ScanProvider.stop w
  ∧ (_active (_scanner w) = false → ScanProvider.stop w = w).
Proof.
  split; [reflexivity|]. split; [reflexivity|].
  split; [|split; [reflexivity|apply stop_when_stopped]].
  unfold animationFrame.
  destruct (iter_scan_running (rafQueue (ScanProvider.start (ScanProvider.start w)))
              (set_rafQueue 0%nat (ScanProvider.start (ScanProvider.start w)))) as [-> _];
    [reflexivity|]. simpl. lia.
Qed.

(** C6, the claim as stated fails: on a scheduler that samples every
    second tick, [start(); start()] is not [start()], and the first frame
    already delivers a [scan] event that a single [start()] does not. *)
Lemma double_start_differs :
  rafQueue (ScanProvider.start (ScanProvider.start
              (scanner_on (every 2) visible (always "ABC")))) = 2%nat
  ∧ rafQueue (ScanProvider.start (scanner_on (every 2) visible (always "ABC"))) = 1%nat
  ∧ ScanProvider.start (ScanProvider.start (scanner_on (every 2) visible (always "ABC")))
    ≠ ScanProvider.start (scanner_on (every 2) visible (always "ABC"))
  ∧ emitted (run [Frame; Elapse 0]
       (ScanProvider.start (ScanProvider.start (scanner_on (every 2) visible (always "ABC")))))
    ≠ emitted (run [Frame; Elapse 0]
         (ScanProvider.start (scanner_on (every 2) visible (always "ABC")))).
Proof.
  split; [reflexivity|]. split; [reflexivity|]. split.
  - intros H. apply (f_equal rafQueue) in H. vm_compute in H. discriminate.
  - vm_compute. discriminate.
Qed.

(** C10.  [ScanProvider.stop()] followed by [ScanProvider.start()] changes
    the running flag and registers a tick, nothing else: [_lastResult], the
    pending refractory timer and its handle, and [_frameCount] are as they
    were.  So the first tick after the restart still suppresses the content
    emitted before the stop, and the counter goes on from its old value. *)
Theorem stop_start_keeps_dedup_and_counter (w : World) :
  ScanProvider.stop w = set_scanner (set_active false (_scanner w)) w
  ∧ ScanProvider.start (ScanProvider.stop w)
    = set_rafQueue (S (rafQueue w)) (set_scanner (set_active true (_scanner w)) w)
  ∧ _lastResult (_scanner (ScanProvider.start (ScanProvider.stop w))) = _lastResult (_scanner w)
  ∧ refractoryTimeout (_scanner (ScanProvider.start (ScanProvider.stop w)))
    = refractoryTimeout (_scanner w)
  ∧ timers (ScanProvider.start (ScanProvider.stop w)) = timers w
  ∧ _frameCount (_scanner (ScanProvider.start (ScanProvider.stop w))) = _frameCount (_scanner w)
  ∧ (∀ a, analyzerFeed w (analyzerCalls w) = Some a →
          _lastResult (_scanner w) = Some (result a) →
          let w' := ScanProvider._scan (ScanProvider.start (ScanProvider.stop w)) in
          timers w' = timers w ∧ emitted w' = emitted w
          ∧ _lastResult (_scanner w') = _lastResult (_scanner w))
  ∧ _frameCount (_scanner (ScanProvider._scan (ScanProvider.start (ScanProvider.stop w))))
    = (if decide (_frameCount (_scanner w) + 1 = scanPeriod (_scanner w))
       then 0 else _frameCount (_scanner w) + 1).
Proof.
  repeat (split; [reflexivity|]). split.
  - intros a Ha Hlast. scan_cases; try done.
    all: match goal with H : Some _ ≠ _ |- _ => by rewrite Hlast in H end.
  - scan_cases; try done.
Qed.

(** C10 on a run: ["ABC"] is emitted on the third tick and the scheduler is
    stopped and started again after the fifth; the sixth tick samples, sees
    ["ABC"] once more and stays silent. *)
Lemma stop_start_keeps_dedup_and_counter_witness :
  let w := frame_then 16 (frame_then 16 (frame_then 16 (frame_then 16
             (frame_then 16 scenario_A)))) in
  let w' := ScanProvider._scan (ScanProvider.start (ScanProvider.stop w)) in
  timers w' = timers w ∧ emitted w' = emitted w
  ∧ _lastResult (_scanner w') = _lastResult (_scanner w).
Proof.
  cbv zeta.
  refine (proj1 (proj2 (proj2 (proj2 (proj2 (proj2 (proj2
            (stop_start_keeps_dedup_and_counter _)))))))
            {| result := "ABC"; canvas := "data:image/webp;base64,UklGRg" |} _ _);
    vm_compute; reflexivity.
Defined.

(** C3 (amended).  The manual [scan()] calls the analyzer at once, whatever
    the tick counter and [_lastResult] are, hands the result back to the
    caller and emits nothing.  It does write the dedup state: a detection
    becomes [_lastResult] and restarts the refractory timer; only when
    nothing is detected is the scheduler left as it was. *)
Theorem manual_scan_writes_dedup_state (w : World) :
  let r := fst (Scanner.scan w) in
  let w' := snd (Scanner.scan w) in
  analyzerCalls w' = S (analyzerCalls w)
  ∧ (∀ n l, fst (Scanner.scan (set_scanner (set_lastResult l (set_frameCount n (_scanner w))) w))
            = r)
  ∧ r = match analyzerFeed w (analyzerCalls w) with
        | Some a => if decide (result a = "") then None
                    else Some (payload_of (captureImage (_scanner w)) a)
        | None => None
        end
  ∧ _frameCount (_scanner w') = _frameCount (_scanner w)
  ∧ _active (_scanner w') = _active (_scanner w)
  ∧ rafQueue w' = rafQueue w
  ∧ emitted w' = emitted w
  ∧ match r with
    | Some p =>
      _lastResult (_scanner w') = Some (content p)
      ∧ refractoryTimeout (_scanner w') = Some (nextTimer w)
      ∧ timers w' = without (refractoryTimeout (_scanner w)) (timers w)
                    ++ [{| tid := nextTimer w;
                           due := now w + Z.max 0 (refractoryPeriod (_scanner w));
                           task := ClearLastResult |}]
    | None => _scanner w' = _scanner w ∧ timers w' = timers w
    end.
Proof.
  unfold Scanner.scan, payload_of. scan_cases; repeat split; try done.
  all: try (intros; scan_cases; done).
  all: try by destruct (_scanner w).
Qed.

(** C3, the claim as stated fails: on a fresh scanner looking at ["ABC"],
    a manual [scan()] changes both [_lastResult] and the timer queue. *)
Lemma manual_scan_changes_dedup_state :
  fst (Scanner.scan (scanner_on no_opts visible (always "ABC")))
  = Some {| content := "ABC"; image := None |}
  ∧ _lastResult (_scanner (snd (Scanner.scan (scanner_on no_opts visible (always "ABC")))))
    ≠ _lastResult (_scanner (scanner_on no_opts visible (always "ABC")))
  ∧ timers (snd (Scanner.scan (scanner_on no_opts visible (always "ABC"))))
    ≠ timers (scanner_on no_opts visible (always "ABC")).
Proof. split; [reflexivity|]. split; vm_compute; discriminate. Qed.

(** C9.  The [continuous] setter starts the scheduler in one case only:
    the new value is true and the machine is in [active].  In every other
    case it stops the scheduler; setting true outside [active] differs from
    setting false only in the value stored in [_continuous]. *)
Theorem continuous_setter_starts_only_when_active (w : World) (b : bool) :
  let w' := Scanner.set_continuous b w in
  _continuous w' = b
  ∧ (b = true ∧ current w = active →
       w' = ScanProvider.start (set_continuous_field true w)
       ∧ _active (_scanner w') = true ∧ rafQueue w' = S (rafQueue w))
  ∧ (¬ (b = true ∧ current w = active) →
       w' = ScanProvider.stop (set_continuous_field b w)
       ∧ _active (_scanner w') = false ∧ rafQueue w' = rafQueue w)
  ∧ (current w ≠ active →
       Scanner.set_continuous true w
       = set_continuous_field true (Scanner.set_continuous false w)).
Proof.
  unfold Scanner.set_continuous. simpl.
  split; [destruct b; simpl; [case_bool_decide|]; done|].
  split; [|split].
  - intros [-> Hc]. simpl. by rewrite bool_decide_eq_true_2.
  - intros Hn. destruct b; simpl; [|done]. rewrite bool_decide_eq_false_2; [done|]. naive_solver.
  - intros Hn. simpl. by rewrite bool_decide_eq_false_2.
Qed.

(** C9 on a scanner that was never started: setting [continuous] to true
    stops the scheduler and registers no tick. *)
Lemma continuous_setter_starts_only_when_active_witness :
  _active (_scanner (Scanner.set_continuous true (scanner_on no_opts visible (always "ABC"))))
  = false
  ∧ rafQueue (Scanner.set_continuous true (scanner_on no_opts visible (always "ABC")))
    = rafQueue (scanner_on no_opts visible (always "ABC")).
Proof.
  pose proof (continuous_setter_starts_only_when_active
                (scanner_on no_opts visible (always "ABC")) true) as (_ & _ & H & _).
  destruct H as (_ & Ha & Hq); [by intros [_ ?]|]. exact (conj Ha Hq).
Defined.

(** ** The state machine, event by event *)

Lemma Act_bind_eq {A B} (m : Act A) (k : A → Act B) (w : World) :
  (m ≫= k) w = match m w with
               | (Resolved a, w') => k a w'
               | (Rejected e, w') => (Rejected e, w')
               end.
Proof. reflexivity. Qed.

(** The machine object has no [backgroundScan]. *)
Lemma machine_object_backgroundScan (w : World) :
  get (StateMachine.machine_object w) "backgroundScan" = JUndefined.
Proof.
  unfold StateMachine.machine_object.
  generalize (StateMachine.state_name (current w)). intros s. vm_compute. reflexivity.
Qed.

Lemma activate_condition_without_property (this : gmap string JsVal) (w : World) :
  this !! "backgroundScan" = None →
  activate_condition this w = if bool_decide (visibility w = visible) then active else inactive.
Proof.
  intros Hnone. unfold activate_condition, get. rewrite Hnone. simpl.
  by rewrite orb_false_r.
Qed.

Lemma activate_condition_on_machine (w : World) :
  activate_condition (StateMachine.machine_object w) w
  = if bool_decide (visibility w = visible) then active else inactive.
Proof.
  unfold activate_condition. rewrite machine_object_backgroundScan. simpl.
  by rewrite orb_false_r.
Qed.

Lemma fsm_stop_eq (arg : option Camera) (w : World) :
  fsm ev_stop arg w =
  match current w with
  | stopped => (Rejected (InvalidTransition ev_stop stopped), w)
  | active => (Resolved tt, enter_state stopped (emit_inactive (_disableScan w)))
  | _ => (Resolved tt, enter_state stopped w)
  end.
Proof. by_cases_of w; reflexivity. Qed.

Lemma fsm_deactivate_eq (arg : option Camera) (w : World) :
  fsm ev_deactivate arg w =
  match current w with
  | started => (Resolved tt, enter_state inactive w)
  | active => (Resolved tt, enter_state inactive (emit_inactive (_disableScan w)))
  | s => (Rejected (InvalidTransition ev_deactivate s), w)
  end.
Proof. by_cases_of w; reflexivity. Qed.

Lemma fsm_activate_eq (arg : option Camera) (w : World) :
  fsm ev_activate arg w =
  if bool_decide (current w = started ∨ current w = inactive) then
    if bool_decide (visibility w = visible) then
      match _enableScan arg w with
      | (Resolved _, w') => (Resolved tt, enter_state active (emit_active w'))
      | (Rejected e, w') => (Rejected e, w')
      end
    else (Resolved tt, enter_state inactive w)
  else (Rejected (InvalidTransition ev_activate (current w)), w).
Proof. by_cases_of w; destruct arg as [[? []]|]; reflexivity. Qed.

(** The activation issued from [onenteredstarted] is the machine's own. *)
Lemma activate_from_started_eq (arg : option Camera) (w : World) :
  activate_from_started arg w = fsm ev_activate arg w.
Proof. by_cases_of w; destruct arg as [[? []]|]; reflexivity. Qed.

Lemma fsm_start_eq (arg : option Camera) (w : World) :
  fsm ev_start arg w =
  if bool_decide (current w = stopped) then
    match fsm ev_activate arg (enter_state started w) with
    | (Resolved _, w') => (Resolved tt, w')
    | (Rejected e, w') => (Rejected e, enter_state stopped w')
    end
  else (Rejected (InvalidTransition ev_start (current w)), w).
Proof. by_cases_of w; destruct arg as [[? []]|]; reflexivity. Qed.

Lemma can_start_eq (w : World) : can ev_start w = bool_decide (current w = stopped).
Proof. by_cases_of w; reflexivity. Qed.

Lemma can_stop_eq (w : World) : can ev_stop w = bool_decide (current w ≠ stopped).
Proof. by_cases_of w; reflexivity. Qed.

(** C4.  The guard of [activate] is a [function], so its [this] is the
    object the state machine calls it on, and that object has no
    [backgroundScan]: the guard answers [active] exactly when the page is
    visible.  On a receiver that did carry the option it would answer
    [active], and the listener of [Visibility.change], an arrow function,
    does honour the scanner's option: with [backgroundScan] on, a page
    going hidden changes nothing.  With the page hidden and
    [backgroundScan] left at its default, true, [start(camera)] ends in
    [inactive] and the camera is never started. *)
Theorem activate_guard_reads_the_machine_object :
  (∀ w, activate_condition (StateMachine.machine_object w) w = active
        ↔ visibility w = visible)
  ∧ (∀ (this : gmap string JsVal) w,
        this !! "backgroundScan" = None →
        (activate_condition this w = active ↔ visibility w = visible))
  ∧ (∀ w, activate_condition {[ "backgroundScan" := JBool true ]} w = active)
  ∧ (∀ w, backgroundScan w = true → on_visibility hidden w = w)
  ∧ backgroundScan (scanner_on no_opts hidden (always "ABC")) = true
  ∧ fst (Scanner.start (Some front_camera) (scanner_on no_opts hidden (always "ABC")))
    = Resolved tt
  ∧ current (snd (Scanner.start (Some front_camera)
                    (scanner_on no_opts hidden (always "ABC")))) = inactive
  ∧ cameraLog (snd (Scanner.start (Some front_camera)
                      (scanner_on no_opts hidden (always "ABC")))) = [].
Proof.
  split; [|split; [|split; [|split; [|by vm_compute]]]].
  - intros w. rewrite activate_condition_on_machine. by case_bool_decide.
  - intros this w Hnone. rewrite activate_condition_without_property by done.
    by case_bool_decide.
  - intros w. unfold activate_condition.
    replace (get {[ "backgroundScan" := JBool true ]} "backgroundScan") with (JBool true)
      by (vm_compute; reflexivity).
    simpl. by rewrite orb_true_r.
  - intros w Hbg. unfold on_visibility. rewrite Hbg. reflexivity.
Qed.








(** ** Counting changes of state *)

Lemma transitions_snoc (h : list State) (a s : State) :
  last h = Some a → transitions (h ++ [s]) = transitions h ++ [(a, s)].
Proof.
  induction h as [|x [|y t] IH]; intros Hl; simplify_eq/=; [done|].
  f_equal. by apply IH.
Qed.

Lemma exits_from_snoc (x : State) (h : list State) (a s : State) :
  last h = Some a →
  exits_from x (h ++ [s])
  = (exits_from x h + if decide (a = x ∧ s ≠ x) then 1 else 0)%nat.
Proof.
  intros Hl. unfold exits_from. rewrite (transitions_snoc _ _ _ Hl), filter_app, length_app.
  f_equal. rewrite filter_cons, filter_nil. simpl. by case_decide.
Qed.

Lemma inactive_emissions_emit (e : Event) (w : World) :
  inactive_emissions (emit e w)
  = (inactive_emissions w + if decide (e = inactive_event) then 1 else 0)%nat.
Proof.
  unfold inactive_emissions, emit. simpl. rewrite filter_app, length_app.
  f_equal. rewrite filter_cons, filter_nil. by case_decide.
Qed.

(** [fsm_consistent] looks at the state, its history and the events only. *)
Lemma consistent_ext (w1 w2 : World) :
  current w2 = current w1 → history w2 = history w1 → emitted w2 = emitted w1 →
  fsm_consistent w1 → fsm_consistent w2.
Proof.
  unfold fsm_consistent, inactive_emissions. intros Hc Hh He. by rewrite Hc, Hh, He.
Qed.

(** Entering a state without leaving [active]. *)
Lemma consistent_enter (s : State) (w : World) :
  fsm_consistent w → (current w = active → s = active) →
  fsm_consistent (enter_state s w).
Proof.
  intros [Hl Hn] Hs. split; simpl; [by rewrite last_snoc|].
  rewrite (exits_from_snoc _ _ _ _ Hl).
  change (inactive_emissions (enter_state s w)) with (inactive_emissions w).
  case_decide as Hd; [|lia]. destruct Hd as [Ha Hne]. by specialize (Hs Ha).
Qed.

(** Leaving [active]: the exit and its [inactive] event come together. *)
Lemma consistent_leave (s : State) (w : World) :
  fsm_consistent w → current w = active → s ≠ active →
  fsm_consistent (enter_state s (emit_inactive w)).
Proof.
  intros [Hl Hn] Hc Hs. split; simpl; [by rewrite last_snoc|].
  rewrite (exits_from_snoc _ _ _ _ Hl).
  change (inactive_emissions (enter_state s (emit_inactive w)))
    with (inactive_emissions (emit inactive_event w)).
  rewrite inactive_emissions_emit. rewrite !decide_True by done. lia.
Qed.

Lemma consistent_emit (e : Event) (w : World) :
  e ≠ inactive_event → fsm_consistent w → fsm_consistent (emit e w).
Proof.
  intros He [Hl Hn]. split; [done|]. rewrite inactive_emissions_emit.
  rewrite decide_False by done. simpl. lia.
Qed.

Lemma enableScan_view (arg : option Camera) (w : World) :
  current (snd (_enableScan arg w)) = current w
  ∧ history (snd (_enableScan arg w)) = history w
  ∧ emitted (snd (_enableScan arg w)) = emitted w.
Proof. unfold _enableScan, throw. repeat (case_match; simpl); done. Qed.

Lemma disableScan_view (w : World) :
  current (_disableScan w) = current w
  ∧ history (_disableScan w) = history w
  ∧ emitted (_disableScan w) = emitted w.
Proof. unfold _disableScan. repeat (case_match; simpl); done. Qed.

Lemma scan_view (w : World) :
  current (ScanProvider._scan w) = current w
  ∧ history (ScanProvider._scan w) = history w
  ∧ emitted (ScanProvider._scan w) = emitted w.
Proof. scan_cases; done. Qed.

Lemma manual_scan_view (w : World) :
  current (snd (ScanProvider.scan w)) = current w
  ∧ history (snd (ScanProvider.scan w)) = history w
  ∧ emitted (snd (ScanProvider.scan w)) = emitted w.
Proof. scan_cases; done. Qed.

Lemma consistent_stop (arg : option Camera) (w : World) :
  fsm_consistent w → fsm_consistent (snd (fsm ev_stop arg w)).
Proof.
  intros H. rewrite fsm_stop_eq. destruct (current w) eqn:E; simpl; try done.
  - apply consistent_enter; [done|]. by rewrite E.
  - destruct (disableScan_view w) as (Hc & Hh & He).
    apply consistent_leave; [by eapply consistent_ext|congruence|done].
  - apply consistent_enter; [done|]. by rewrite E.
Qed.

Lemma consistent_deactivate (arg : option Camera) (w : World) :
  fsm_consistent w → fsm_consistent (snd (fsm ev_deactivate arg w)).
Proof.
  intros H. rewrite fsm_deactivate_eq. destruct (current w) eqn:E; simpl; try done.
  - apply consistent_enter; [done|]. by rewrite E.
  - destruct (disableScan_view w) as (Hc & Hh & He).
    apply consistent_leave; [by eapply consistent_ext|congruence|done].
Qed.

Lemma consistent_activate (arg : option Camera) (w : World) :
  fsm_consistent w → fsm_consistent (snd (fsm ev_activate arg w)).
Proof.
  intros H. rewrite fsm_activate_eq. case_bool_decide as Hc; [|done].
  destruct (enableScan_view arg w) as (Hc' & Hh & He).
  case_bool_decide.
  - destruct (_enableScan arg w) as [[[]|e] w'] eqn:E; simpl in *.
    + apply consistent_enter; [|done]. apply consistent_emit; [done|].
      eapply consistent_ext; [..|exact H]; done.
    + eapply consistent_ext; [..|exact H]; done.
  - simpl. apply consistent_enter; [done|]. intros Ha. rewrite Ha in Hc. by destruct Hc.
Qed.

Lemma activate_current (arg : option Camera) (w : World) :
  current w = started →
  current (snd (fsm ev_activate arg w)) ≠ stopped.
Proof.
  intros Hs. rewrite fsm_activate_eq, bool_decide_eq_true_2 by auto.
  destruct (enableScan_view arg w) as (Hc' & _).
  case_bool_decide; [|done].
  destruct (_enableScan arg w) as [[[]|e] w'] eqn:E; simpl in *; congruence.
Qed.

Lemma consistent_start (arg : option Camera) (w : World) :
  fsm_consistent w → fsm_consistent (snd (fsm ev_start arg w)).
Proof.
  intros H. rewrite fsm_start_eq. case_bool_decide as Hc; [|done].
  assert (fsm_consistent (snd (fsm ev_activate arg (enter_state started w)))) as Ha.
  { apply consistent_activate, consistent_enter; [done|congruence]. }
  destruct (fsm ev_activate arg (enter_state started w)) as [[[]|e] w'] eqn:E; simpl in *;
    [done|].
  apply consistent_enter; [done|]. intros Hact.
  (* a failed activation leaves the machine in [started] *)
  exfalso. revert E Hact. rewrite fsm_activate_eq. simpl.
  destruct (enableScan_view arg (enter_state started w)) as (Hc' & _).
  case_bool_decide; [|done].
  destruct (_enableScan arg (enter_state started w)) as [[[]|e'] w''] eqn:E'; simpl in *;
    intros; simplify_eq/=. congruence.
Qed.

Lemma consistent_iter_scan (n : nat) (w : World) :
  fsm_consistent w → fsm_consistent (Nat.iter n ScanProvider._scan w).
Proof.
  intros H. induction n as [|n IH]; simpl; [done|].
  destruct (scan_view (Nat.iter n ScanProvider._scan w)) as (? & ? & ?).
  by eapply consistent_ext.
Qed.

Lemma consistent_task (k : Task) (w : World) :
  fsm_consistent w → fsm_consistent (run_task k w).
Proof.
  intros H. destruct k; simpl.
  - by eapply consistent_ext.
  - by apply consistent_emit.
  - case_match; [|done]. by apply consistent_activate.
Qed.

Lemma consistent_tasks (l : list Timer) (w : World) :
  fsm_consistent w → fsm_consistent (foldl (λ w x, run_task (task x) w) w l).
Proof.
  revert w. induction l as [|t l IH]; intros w H; simpl; [done|].
  by apply IH, consistent_task.
Qed.

Lemma consistent_step (o : Op) (w : World) :
  fsm_consistent w → fsm_consistent (step o w).
Proof.
  intros H. destruct o; simpl.
  - apply consistent_iter_scan. by eapply consistent_ext.
  - apply consistent_tasks. by eapply consistent_ext.
  - unfold on_visibility. case_decide; [by eapply consistent_ext|].
    case_match; [|by eapply consistent_ext].
    apply consistent_deactivate. by eapply consistent_ext.
  - unfold Scanner.start. case_match; [by apply consistent_start|].
    rewrite Act_bind_eq.
    pose proof (consistent_stop None w H) as Hs.
    destruct (fsm ev_stop None w) as [[[]|e] w']; simpl in *; [|done].
    by apply consistent_start.
  - unfold Scanner.stop. case_match; [|done]. by apply consistent_stop.
  - destruct (manual_scan_view w) as (? & ? & ?). by eapply consistent_ext.
  - unfold set_continuous. case_match; by eapply consistent_ext.
  - by eapply consistent_ext.
  - by eapply consistent_ext.
  - by eapply consistent_ext.
  - by eapply consistent_ext.
Qed.

Lemma consistent_run (ops : list Op) (w : World) :
  fsm_consistent w → fsm_consistent (run ops w).
Proof.
  revert w. induction ops as [|o ops IH]; intros w H; simpl; [done|].
  by apply IH, consistent_step.
Qed.

Lemma consistent_constructor (opts : Opts) (vis : VisibilityState)
    (feed : nat → option Analysis) (w : World) :
  constructor opts vis feed = Resolved w → fsm_consistent w.
Proof.
  unfold constructor. destruct (_configureVideo opts); [|done].
  intros [= <-]. by split.
Qed.

(** C7 (amended).  A new scanner has emitted [inactive] once.  After any
    sequence of frames, timers, visibility changes and calls, the number of
    [inactive] events is one plus the number of times the machine has left
    [active]: each exit from [active], to [inactive] or to [stopped], emits
    one, and nothing else does. *)
Theorem inactive_event_per_exit_from_active (opts : Opts) (vis : VisibilityState)
    (feed : nat → option Analysis) (w : World) (ops : list Op) :
  constructor opts vis feed = Resolved w →
  inactive_emissions w = 1%nat
  ∧ inactive_emissions (run ops w) = S (exits_from active (history (run ops w))).
Proof.
  intros Hc. split.
  - unfold constructor in Hc. destruct (_configureVideo opts); [|done].
    by injection Hc as <-.
  - by destruct (consistent_run ops w (consistent_constructor _ _ _ _ Hc)).
Qed.

Lemma inactive_event_per_exit_from_active_witness :
  inactive_emissions (scanner_on no_opts visible (always "ABC")) = 1%nat
  ∧ inactive_emissions
      (run [Start (Some front_camera); VisibilityChange hidden; Stop]
           (scanner_on no_opts visible (always "ABC")))
    = S (exits_from active
           (history (run [Start (Some front_camera); VisibilityChange hidden; Stop]
                         (scanner_on no_opts visible (always "ABC"))))).
Proof.
  exact (inactive_event_per_exit_from_active no_opts visible (always "ABC")
           (scanner_on no_opts visible (always "ABC"))
           [Start (Some front_camera); VisibilityChange hidden; Stop] eq_refl).
Defined.

(** C7, the claim as stated fails: [start(camera)] and then [stop()] on a
    visible page never enter [inactive], yet [stop()] from [active] emits
    [inactive], the second such event of the run. *)
Lemma inactive_event_on_stop_from_active :
  history (run [Start (Some front_camera); Stop] (scanner_on no_opts visible (always "ABC")))
  = [stopped; started; active; stopped]
  ∧ emitted (run [Start (Some front_camera); Stop]
                 (scanner_on no_opts visible (always "ABC")))
    = [inactive_event; active_event; inactive_event]
  ∧ entries_into inactive
      (history (run [Start (Some front_camera); Stop]
                    (scanner_on no_opts visible (always "ABC")))) = 0%nat
  ∧ inactive_emissions
      (run [Start (Some front_camera); Stop] (scanner_on no_opts visible (always "ABC")))
    ≠ S (entries_into inactive
           (history (run [Start (Some front_camera); Stop]
                         (scanner_on no_opts visible (always "ABC"))))).
Proof. repeat split; vm_compute; try reflexivity. discriminate. Qed.

(** ** Timers *)

Lemma insert_by_due_perm (t : Timer) (l : list Timer) : insert_by_due t l ≡ₚ t :: l.
Proof.
  induction l as [|u l IH]; simpl; [done|].
  case_decide; [done|]. rewrite IH. apply Permutation_swap.
Qed.

Lemma by_due_perm (l : list Timer) : by_due l ≡ₚ l.
Proof.
  induction l as [|t l IH]; simpl; [done|].
  unfold by_due in *. simpl. rewrite insert_by_due_perm. by rewrite IH.
Qed.

Lemma activate_keeps_dedup (arg : option Camera) (c : string) (w : World) :
  let w' := snd (fsm ev_activate arg w) in
  timers w' = timers w ∧ now w' = now w
  ∧ _lastResult (_scanner w') = _lastResult (_scanner w)
  ∧ refractoryTimeout (_scanner w') = refractoryTimeout (_scanner w)
  ∧ refractoryPeriod (_scanner w') = refractoryPeriod (_scanner w)
  ∧ analyzerFeed w' = analyzerFeed w
  ∧ scans_delivered c w' = scans_delivered c w.
Proof.
  simpl. rewrite fsm_activate_eq. unfold _enableScan, throw, scans_delivered.
  repeat (case_bool_decide || case_match || simplify_eq/=); try done.
  all: repeat split; try done.
  all: by rewrite filter_app, filter_cons, filter_nil; simpl; rewrite app_nil_r.
Qed.

(** What running a timer's closure does to the queue and to the count of
    delivered [scan] events. *)
Lemma run_task_effect (k : Task) (c : string) (w : World) :
  timers (run_task k w) = timers w ∧ now (run_task k w) = now w
  ∧ analyzerFeed (run_task k w) = analyzerFeed w
  ∧ refractoryTimeout (_scanner (run_task k w)) = refractoryTimeout (_scanner w)
  ∧ refractoryPeriod (_scanner (run_task k w)) = refractoryPeriod (_scanner w)
  ∧ scans_delivered c (run_task k w)
    = (scans_delivered c w
       + match k with EmitScan p => if decide (content p = c) then 1 else 0 | _ => 0 end)%nat
  ∧ (k ≠ ClearLastResult → _lastResult (_scanner (run_task k w)) = _lastResult (_scanner w)).
Proof.
  destruct k as [|p|]; simpl.
  - repeat split; try done; unfold scans_delivered; simpl; lia.
  - repeat split; try done. unfold scans_delivered. simpl.
    rewrite filter_app, length_app, filter_cons, filter_nil. simpl.
    f_equal. destruct (decide (content p = c)) as [E|E];
      [rewrite (bool_decide_eq_true_2 _ E)|rewrite (bool_decide_eq_false_2 _ E)]; done.
  - case_match; [|repeat split; try done; lia].
    destruct (activate_keeps_dedup None c w) as (? & ? & ? & ? & ? & ? & ->).
    repeat split; try done; lia.
Qed.

Lemma length_filter_emits_cons (c : string) (t : Timer) (l : list Timer) :
  length (filter (λ t, emits c t) (t :: l))
  = (match task t with EmitScan p => if decide (content p = c) then 1 else 0 | _ => 0 end
     + length (filter (λ t, emits c t) l))%nat.
Proof.
  rewrite filter_cons. destruct t as [i d [|p|]]; unfold emits at 1; simpl; try done.
  destruct (decide (content p = c)) as [E|E]; simpl.
  - by rewrite decide_True by by apply bool_decide_pack.
  - by rewrite decide_False by by intros ?%bool_decide_unpack.
Qed.

Lemma run_tasks_effect (l : list Timer) (c : string) (w : World) :
  let w' := foldl (λ w x, run_task (task x) w) w l in
  timers w' = timers w ∧ now w' = now w
  ∧ analyzerFeed w' = analyzerFeed w
  ∧ refractoryTimeout (_scanner w') = refractoryTimeout (_scanner w)
  ∧ refractoryPeriod (_scanner w') = refractoryPeriod (_scanner w)
  ∧ scans_delivered c w' = (scans_delivered c w + length (filter (λ t, emits c t) l))%nat
  ∧ (filter (λ t, clears t) l = [] → _lastResult (_scanner w') = _lastResult (_scanner w)).
Proof.
  revert w. induction l as [|t l IH]; intros w; simpl.
  { repeat split; try done; lia. }
  destruct (IH (run_task (task t) w)) as (-> & -> & -> & -> & -> & -> & Hl).
  destruct (run_task_effect (task t) c w) as (-> & -> & -> & -> & -> & -> & Hk).
  repeat split; try done.
  - rewrite length_filter_emits_cons. lia.
  - destruct t as [i d k]. rewrite filter_cons. intros Hn.
    destruct k; [by simpl in Hn|..]; (etrans; [apply Hl; exact Hn|by apply Hk]).
Qed.

Lemma produced_elapse (c : string) (dt : nat) (w : World) :
  produced c (elapse dt w) = produced c w.
Proof.
  unfold produced, elapse.
  match goal with |- context [foldl ?f ?w0 ?l] =>
    destruct (run_tasks_effect l c w0) as (-> & _ & _ & _ & _ & Hs & _) end.
  unfold scans_delivered in Hs. rewrite Hs. simpl.
  rewrite (filter_Permutation _ _ _ (by_due_perm _)).
  rewrite <- Nat.add_assoc. f_equal.
  rewrite <- length_app, <- filter_app.
  apply Permutation_length, filter_Permutation, filter_app_complement.
Qed.

(** ** Duplicate suppression *)

Lemma filter_comm {A} (P Q : A → Prop) `{!∀ x, Decision (P x)} `{!∀ x, Decision (Q x)}
    (l : list A) :
  filter P (filter Q l) = filter Q (filter P l).
Proof.
  rewrite !list_filter_filter. apply list_filter_iff. intros x. tauto.
Qed.

(** A tick that sees the stored content again changes neither the timers
    nor the events. *)
Lemma duplicate_tick (c : string) (w : World) :
  _lastResult (_scanner w) = Some c →
  (∃ cv, analyzerFeed w (analyzerCalls w) = Some {| result := c; canvas := cv |}) →
  timers (ScanProvider._scan w) = timers w
  ∧ emitted (ScanProvider._scan w) = emitted w
  ∧ now (ScanProvider._scan w) = now w
  ∧ _lastResult (_scanner (ScanProvider._scan w)) = Some c
  ∧ refractoryTimeout (_scanner (ScanProvider._scan w)) = refractoryTimeout (_scanner w).
Proof.
  intros Hl [cv Hf]. scan_cases; try done.
  all: match goal with H : Some _ ≠ _ |- _ => by rewrite Hl in H end.
Qed.

Lemma scan_keeps_feed (w : World) :
  analyzerFeed (ScanProvider._scan w) = analyzerFeed w.
Proof. scan_cases; done. Qed.

Lemma elapse_keeps_feed (dt : nat) (w : World) :
  analyzerFeed (elapse dt w) = analyzerFeed w.
Proof.
  unfold elapse.
  match goal with |- context [foldl ?f ?w0 ?l] =>
    by destruct (run_tasks_effect l "" w0) as (_ & _ & -> & _) end.
Qed.

Lemma loop_keeps_feed (steps : list LoopStep) (w : World) :
  analyzerFeed (run_loop steps w) = analyzerFeed w.
Proof.
  revert w. induction steps as [|[|dt] l IH]; intros w; simpl; [done|..]; rewrite IH.
  - apply scan_keeps_feed.
  - apply elapse_keeps_feed.
Qed.

Lemma tick_in_window (c : string) (t : Timer) (w : World) :
  in_window c t w →
  (∃ cv, analyzerFeed w (analyzerCalls w) = Some {| result := c; canvas := cv |}) →
  in_window c t (ScanProvider._scan w) ∧ produced c (ScanProvider._scan w) = produced c w.
Proof.
  intros (Hl & Hr & Ht & Hn) Hf.
  destruct (duplicate_tick c w Hl Hf) as (Ht' & He' & Hn' & Hl' & Hr').
  split; [|unfold produced; by rewrite Ht', He'].
  unfold in_window. by rewrite Ht', Hn', Hl', Hr'.
Qed.

Lemma wait_in_window (c : string) (t : Timer) (dt : nat) (w : World) :
  in_window c t w → now w + Z.of_nat dt < due t → in_window c t (elapse dt w).
Proof.
  intros (Hl & Hr & Ht & Hn) Hd. unfold elapse.
  match goal with |- context [foldl ?f ?w0 ?l] =>
    destruct (run_tasks_effect l c w0) as (Ht' & Hn' & _ & Hr' & _ & _ & Hl') end.
  unfold in_window. rewrite Ht', Hn', Hr', Hl'; simpl.
  - repeat split; try done. rewrite filter_comm, Ht, filter_cons, filter_nil.
    rewrite decide_True by lia. done.
  - apply Permutation_nil_r. rewrite (filter_Permutation _ _ _ (by_due_perm _)).
    rewrite filter_comm, Ht, filter_cons, filter_nil. by rewrite decide_False by lia.
Qed.

Lemma loop_in_window (c : string) (t : Timer) (steps : list LoopStep) (w : World) :
  in_window c t w →
  (∀ n, ∃ cv, analyzerFeed w n = Some {| result := c; canvas := cv |}) →
  now w + Z.of_nat (waited steps) < due t →
  in_window c t (run_loop steps w) ∧ produced c (run_loop steps w) = produced c w.
Proof.
  revert w. induction steps as [|[|dt] l IH]; intros w Hw Hf Hd; simpl in *; [done|..].
  - destruct (tick_in_window c t w Hw (Hf _)) as [Hw' <-].
    apply IH; [done|by rewrite scan_keeps_feed|].
    by destruct (duplicate_tick c w (proj1 Hw) (Hf _)) as (_ & _ & -> & _).
  - rewrite <- (produced_elapse c dt w).
    assert (now (elapse dt w) = now w + Z.of_nat dt) as Hn.
    { unfold elapse.
      match goal with |- context [foldl ?f ?w0 ?l] =>
        by destruct (run_tasks_effect l c w0) as (_ & -> & _) end. }
    apply IH; [apply wait_in_window; [done|lia]|by rewrite elapse_keeps_feed|lia].
Qed.

(** ** The clearing timer is the one the scheduler remembers *)

Lemma elem_of_without (h : option nat) (l : list Timer) (t : Timer) :
  t ∈ without h l → t ∈ l ∧ h ≠ Some (tid t).
Proof.
  destruct h as [id|]; simpl; [|done].
  rewrite list_elem_of_filter. intros [Hne Hin]. split; [done|]. by intros [= ->].
Qed.

Lemma wf_scan (w : World) : refractory_wf w → refractory_wf (ScanProvider._scan w).
Proof.
  unfold refractory_wf. intros Hwf.
  scan_cases; try done; intros t Hin Hk.
  all: rewrite !elem_of_app, !list_elem_of_singleton in Hin.
  all: destruct_or?; simplify_eq/=; try done.
  all: apply elem_of_without in Hin as [Hin Hne]; by specialize (Hwf _ Hin Hk).
Qed.

Lemma wf_manual_scan (w : World) :
  refractory_wf w → refractory_wf (snd (ScanProvider.scan w)).
Proof.
  unfold refractory_wf. intros Hwf.
  scan_cases; try done; intros t Hin Hk.
  all: rewrite !elem_of_app, !list_elem_of_singleton in Hin.
  all: destruct_or?; simplify_eq/=; try done.
  all: apply elem_of_without in Hin as [Hin Hne]; by specialize (Hwf _ Hin Hk).
Qed.

Lemma wf_elapse (dt : nat) (w : World) : refractory_wf w → refractory_wf (elapse dt w).
Proof.
  unfold refractory_wf, elapse. intros Hwf t.
  match goal with |- context [foldl ?f ?w0 ?l] =>
    destruct (run_tasks_effect l "" w0) as (-> & _ & _ & -> & _) end.
  simpl. rewrite list_elem_of_filter. intros [_ Hin]. by apply Hwf.
Qed.

Lemma wf_loop (steps : list LoopStep) (w : World) :
  refractory_wf w → refractory_wf (run_loop steps w).
Proof.
  revert w. induction steps as [|[|dt] l IH]; intros w Hwf; simpl; [done|..]; apply IH.
  - by apply wf_scan.
  - by apply wf_elapse.
Qed.

Lemma fsm_keeps_timers (e : FsmEvent) (arg : option Camera) (w : World) :
  timers (snd (fsm e arg w)) = timers w
  ∧ refractoryTimeout (_scanner (snd (fsm e arg w))) = refractoryTimeout (_scanner w).
Proof.
  destruct e.
  - rewrite fsm_start_eq, fsm_activate_eq. unfold _enableScan, throw.
    repeat (case_bool_decide || case_match || simplify_eq/=); done.
  - rewrite fsm_stop_eq. unfold _disableScan. repeat (case_match || simplify_eq/=); done.
  - rewrite fsm_activate_eq. unfold _enableScan, throw.
    repeat (case_bool_decide || case_match || simplify_eq/=); done.
  - rewrite fsm_deactivate_eq. unfold _disableScan. repeat (case_match || simplify_eq/=); done.
Qed.

Lemma wf_ext (w1 w2 : World) :
  timers w2 = timers w1 →
  refractoryTimeout (_scanner w2) = refractoryTimeout (_scanner w1) →
  refractory_wf w1 → refractory_wf w2.
Proof. unfold refractory_wf. by intros -> ->. Qed.

Lemma wf_step (o : Op) (w : World) : refractory_wf w → refractory_wf (step o w).
Proof.
  intros Hwf. destruct o; simpl.
  - unfold animationFrame. generalize (rafQueue w). intros n.
    induction n as [|n IH]; simpl; [by eapply wf_ext|by apply wf_scan].
  - by apply wf_elapse.
  - unfold on_visibility. case_decide.
    + intros t. simpl. rewrite elem_of_app, list_elem_of_singleton.
      intros [Hin| ->] Hk; [by apply Hwf|done].
    + case_match; [|by eapply wf_ext].
      destruct (fsm_keeps_timers ev_deactivate None (set_visibility v w)) as [? ?].
      by eapply wf_ext.
  - unfold Scanner.start. case_match.
    + destruct (fsm_keeps_timers ev_start camera w) as [? ?]. by eapply wf_ext.
    + rewrite Act_bind_eq.
      destruct (fsm_keeps_timers ev_stop None w) as [Ht Hr].
      destruct (fsm ev_stop None w) as [[[]|e] w']; simpl in *; [|by eapply wf_ext].
      destruct (fsm_keeps_timers ev_start camera w') as [? ?].
      eapply wf_ext; [..|exact Hwf]; congruence.
  - unfold Scanner.stop. case_match; [|done].
    destruct (fsm_keeps_timers ev_stop None w) as [? ?]. by eapply wf_ext.
  - by apply wf_manual_scan.
  - unfold set_continuous. case_match; by eapply wf_ext.
  - by eapply wf_ext.
  - by eapply wf_ext.
  - by eapply wf_ext.
  - by eapply wf_ext.
Qed.

Lemma wf_run (ops : list Op) (w : World) : refractory_wf w → refractory_wf (run ops w).
Proof.
  revert w. induction ops as [|o ops IH]; intros w H; simpl; [done|].
  by apply IH, wf_step.
Qed.

Lemma wf_constructor (opts : Opts) (vis : VisibilityState)
    (feed : nat → option Analysis) (w : World) :
  constructor opts vis feed = Resolved w → refractory_wf w.
Proof.
  unfold constructor. destruct (_configureVideo opts); [|done].
  intros [= <-] t Hin. simpl in Hin. by apply elem_of_nil in Hin.
Qed.

Lemma no_stale_clear (w : World) :
  refractory_wf w →
  filter (λ x, clears x) (without (refractoryTimeout (_scanner w)) (timers w)) = [].
Proof.
  intros Hwf. apply elem_of_nil_inv. intros t [Hc Hin]%list_elem_of_filter.
  apply elem_of_without in Hin as [Hin Hne]. apply Hne, Hwf; [done|].
  unfold clears in Hc. by destruct (task t).
Qed.

(** The tick that produces an event opens the window. *)
Lemma first_emission (c : string) (w : World) :
  refractory_wf w →
  (∃ cv, analyzerFeed w (analyzerCalls w) = Some {| result := c; canvas := cv |}) →
  produced c (ScanProvider._scan w) ≠ produced c w →
  in_window c {| tid := nextTimer w;
                 due := now w + Z.max 0 (refractoryPeriod (_scanner w));
                 task := ClearLastResult |} (ScanProvider._scan w)
  ∨ Z.max 0 (refractoryPeriod (_scanner w)) = 0.
Proof.
  intros Hwf [cv Hf] Hp.
  destruct (decide (0 < Z.max 0 (refractoryPeriod (_scanner w)))) as [Hpos|]; [left|right; lia].
  pose proof (no_stale_clear w Hwf) as Hstale.
  revert Hp. unfold in_window. scan_cases; try done; intros _.
  all: repeat split; try done; try lia.
  all: by rewrite !filter_app, Hstale.
Qed.

(** C1.  Take any sequence of ticks and pauses during which the analyzer
    keeps returning the content [c], and in it the first tick that produces
    a [scan] event for [c].  If the pauses after that tick add up to less
    than the refractory period, then the whole sequence produces exactly
    one [scan] event for [c]; at its end [c] is still the stored content
    and the timer set by that tick is still the one pending, not restarted.
    A tick that sees the stored content again leaves the timers and the
    events alone. *)
Theorem dedup_exactly_once (w : World) (c : string) (pre post : list LoopStep) :
  refractory_wf w →
  (∀ n, ∃ cv, analyzerFeed w n = Some {| result := c; canvas := cv |}) →
  produced c (run_loop pre w) = produced c w →
  produced c (ScanProvider._scan (run_loop pre w)) = S (produced c (run_loop pre w)) →
  Z.of_nat (waited post) < Z.max 0 (refractoryPeriod (_scanner (run_loop pre w))) →
  produced c (run_loop (pre ++ Tick :: post) w) = S (produced c w)
  ∧ in_window c {| tid := nextTimer (run_loop pre w);
                   due := now (run_loop pre w)
                          + Z.max 0 (refractoryPeriod (_scanner (run_loop pre w)));
                   task := ClearLastResult |}
              (run_loop (pre ++ Tick :: post) w)
  ∧ (∀ w', _lastResult (_scanner w') = Some c →
           (∃ cv, analyzerFeed w' (analyzerCalls w')
                  = Some {| result := c; canvas := cv |}) →
           timers (ScanProvider._scan w') = timers w'
           ∧ emitted (ScanProvider._scan w') = emitted w'
           ∧ refractoryTimeout (_scanner (ScanProvider._scan w'))
             = refractoryTimeout (_scanner w')).
Proof.
  intros Hwf Hf Hpre Hfirst Hpost.
  unfold run_loop in *. rewrite foldl_app. simpl. fold (run_loop pre w) in *.
  set (w1 := run_loop pre w) in *.
  assert (∀ n, ∃ cv, analyzerFeed w1 n = Some {| result := c; canvas := cv |}) as Hf1.
  { intros n. unfold w1. rewrite loop_keeps_feed. apply Hf. }
  destruct (first_emission c w1) as [Hwin|Hzero]; [by apply wf_loop|apply Hf1|lia| |lia].
  destruct (loop_in_window c _ post (ScanProvider._scan w1) Hwin) as [Hin Hprod].
  { intros n. rewrite scan_keeps_feed. apply Hf1. }
  { simpl. destruct Hwin as (_ & _ & _ & Hn). simpl in Hn.
    assert (now (ScanProvider._scan w1) = now w1) as -> by (scan_cases; done). lia. }
  fold (run_loop post (ScanProvider._scan w1)).
  split; [lia|]. split; [done|].
  intros w' Hl' Hf'. by destruct (duplicate_tick c w' Hl' Hf') as (? & ? & _ & _ & ?).
Qed.

Lemma dedup_exactly_once_witness :
  produced "ABC"
    (run_loop ([Tick; Wait 16; Tick; Wait 16] ++ Tick :: [Wait 16; Tick; Wait 16; Tick; Wait 16;
                Tick; Wait 4900; Tick; Tick; Tick])
              scenario_A) = 1%nat.
Proof.
  refine (proj1 (dedup_exactly_once scenario_A "ABC" [Tick; Wait 16; Tick; Wait 16]
                   [Wait 16; Tick; Wait 16; Tick; Wait 16; Tick; Wait 4900; Tick; Tick; Tick]
                   _ _ eq_refl eq_refl eq_refl)).
  - intros t Hin. by apply elem_of_nil in Hin.
  - intros n. by eexists.
Defined.

(** ** Scenario A, tick by tick *)

Section ScenarioA.
Variables (t : Z) (last : option string) (handle : option nat) (next : nat)
          (queue : list Timer) (calls : nat) (log : list Event).

Lemma scenario_A_start : scenario_A = scenario_A_at 0 0 None None 0 [] 0 [inactive_event].
Proof. reflexivity. Qed.

Lemma frame_skip_0 :
  animationFrame (scenario_A_at t 0 last handle next queue calls log)
  = scenario_A_at t 1 last handle next queue calls log.
Proof. reflexivity. Qed.

Lemma frame_skip_1 :
  animationFrame (scenario_A_at t 1 last handle next queue calls log)
  = scenario_A_at t 2 last handle next queue calls log.
Proof. reflexivity. Qed.

Lemma frame_sample_new :
  animationFrame (scenario_A_at t 2 None handle next queue calls log)
  = scenario_A_at t 0 (Some "ABC") (Some next) (S (S next))
      ((without handle queue ++ [clear_at next (t + 5000)]) ++ [emit_at (S next) (t + 0)])
      (S calls) log.
Proof. reflexivity. Qed.

Lemma frame_sample_same :
  animationFrame (scenario_A_at t 2 (Some "ABC") handle next queue calls log)
  = scenario_A_at t 0 (Some "ABC") handle next queue (S calls) log.
Proof. reflexivity. Qed.

Lemma elapse_idle (d : nat) (count : Z) :
  elapse d (scenario_A_at t count last handle next [] calls log)
  = scenario_A_at (t + Z.of_nat d) count last handle next [] calls log.
Proof. reflexivity. Qed.

Lemma elapse_clear (d : nat) (count : Z) (i : nat) (a : Z) :
  elapse d (scenario_A_at t count last handle next [clear_at i a] calls log)
  = if decide (a ≤ t + Z.of_nat d)
    then scenario_A_at (t + Z.of_nat d) count None handle next [] calls log
    else scenario_A_at (t + Z.of_nat d) count last handle next [clear_at i a] calls log.
Proof.
  unfold elapse. simpl. rewrite !filter_cons, !filter_nil. simpl.
  destruct (Z.le_gt_cases a (t + Z.of_nat d)) as [H|H]; settle_decisions; reflexivity.
Qed.

Lemma elapse_clear_emit (d : nat) (count : Z) (i j : nat) (a b : Z) :
  b ≤ t + Z.of_nat d →
  elapse d (scenario_A_at t count last handle next [clear_at i a; emit_at j b] calls log)
  = if decide (a ≤ t + Z.of_nat d)
    then scenario_A_at (t + Z.of_nat d) count None handle next [] calls
           (log ++ [scan_event "ABC" None])
    else scenario_A_at (t + Z.of_nat d) count last handle next [clear_at i a] calls
           (log ++ [scan_event "ABC" None]).
Proof.
  intros Hb. unfold elapse. simpl. rewrite !filter_cons, !filter_nil. simpl.
  destruct (Z.le_gt_cases a (t + Z.of_nat d)) as [H|H]; settle_decisions; simpl;
    [case_decide|]; reflexivity.
Qed.
End ScenarioA.

(** C2 (amended).  In scenario A, whatever the pauses between the ticks:
    ticks 1 and 2 deliver nothing, tick 3 delivers [scan("ABC", null)],
    ticks 4 and 5 deliver nothing, and tick 6 delivers a second event only
    if the refractory timer set on tick 3 has fired by then, that is if at
    least 5000 ms lie between tick 3 and tick 6; otherwise tick 6 is
    suppressed as a duplicate. *)
Theorem scenario_A_sixth_tick_waits_for_the_timer (d1 d2 d3 d4 d5 d6 : nat) :
  let w1 := frame_then d1 scenario_A in
  let w2 := frame_then d2 w1 in
  let w3 := frame_then d3 w2 in
  let w4 := frame_then d4 w3 in
  let w5 := frame_then d5 w4 in
  let w6 := frame_then d6 w5 in
  delivered scenario_A w1 = []
  ∧ delivered w1 w2 = []
  ∧ delivered w2 w3 = [scan_event "ABC" None]
  ∧ delivered w3 w4 = []
  ∧ delivered w4 w5 = []
  ∧ delivered w5 w6 = if decide (5000 ≤ d3 + d4 + d5)%nat
                      then [scan_event "ABC" None] else [].
Proof.
  cbv zeta. unfold frame_then. rewrite scenario_A_start.
  rewrite frame_skip_0, elapse_idle, frame_skip_1, elapse_idle, frame_sample_new.
  cbn [without]; rewrite ?filter_nil; cbn [app].
  rewrite elapse_clear_emit by lia.
  destruct (decide (5000 ≤ d3)%nat) as [H3|H3];
    [rewrite decide_True by lia|rewrite decide_False by lia].
  - rewrite frame_skip_0, elapse_idle, frame_skip_1, elapse_idle, frame_sample_new.
    cbn [without]; rewrite ?filter_nil; cbn [app]. rewrite elapse_clear_emit by lia.
    rewrite (decide_True (P := (5000 ≤ d3 + d4 + d5)%nat)) by lia.
    repeat split; try reflexivity. by case_decide.
  - rewrite frame_skip_0, elapse_clear.
    destruct (decide (5000 ≤ d3 + d4)%nat) as [H4|H4];
      [rewrite decide_True by lia|rewrite decide_False by lia].
    + rewrite frame_skip_1, elapse_idle, frame_sample_new.
      cbn [without]; rewrite ?filter_nil; cbn [app]. rewrite elapse_clear_emit by lia.
      rewrite (decide_True (P := (5000 ≤ d3 + d4 + d5)%nat)) by lia.
      repeat split; try reflexivity. by case_decide.
    + rewrite frame_skip_1, elapse_clear.
      destruct (decide (5000 ≤ d3 + d4 + d5)%nat) as [H5|H5];
        [rewrite decide_True by lia|rewrite decide_False by lia].
      * rewrite frame_sample_new. cbn [without]; rewrite ?filter_nil; cbn [app]. rewrite elapse_clear_emit by lia.
        repeat split; try reflexivity. by case_decide.
      * rewrite frame_sample_same, elapse_clear.
        repeat split; try reflexivity. by case_decide.
Qed.

(** C2, the claim as stated fails: with frames 16 ms apart, tick 3
    delivers the event and tick 6 delivers none. *)
Lemma scenario_A_sixth_tick_is_silent :
  delivered (frame_then 16 (frame_then 16 scenario_A))
            (frame_then 16 (frame_then 16 (frame_then 16 scenario_A)))
  = [scan_event "ABC" None]
  ∧ delivered
      (frame_then 16 (frame_then 16 (frame_then 16 (frame_then 16 (frame_then 16 scenario_A)))))
      (frame_then 16 (frame_then 16 (frame_then 16 (frame_then 16 (frame_then 16
         (frame_then 16 scenario_A))))))
    ≠ [scan_event "ABC" None].
Proof. split; vm_compute; [reflexivity|discriminate]. Qed.

(** ** The Analyzer class *)

Section AnalyzerProperties.
Import AnalyzerClass.

(** Induction on pixel data, four bytes at a time. *)
Lemma quad_ind (P : list Z → Prop) :
  P [] → (∀ r, P [r]) → (∀ r g, P [r; g]) → (∀ r g b, P [r; g; b]) →
  (∀ r g b a rest, P rest → P (r :: g :: b :: a :: rest)) →
  ∀ l, P l.
Proof.
  intros H0 H1 H2 H3 H4 l.
  assert (∀ n l, (length l ≤ n)%nat → P l) as Hn; [|by apply (Hn (length l))].
  clear l. intros n. induction n as [|n IH]; intros l Hl.
  - destruct l; [done|simpl in Hl; lia].
  - destruct l as [|r [|g [|b [|a rest]]]]; try done.
    apply H4, IH. simpl in Hl. lia.
Qed.

Lemma grayscale_length (data : list Z) (j : nat) (heap : list Z) :
  length (grayscale data j heap) = length heap.
Proof.
  revert j heap. induction data as [|r|r g|r g b|r g b a rest IH] using quad_ind;
    intros j heap; simpl; rewrite ?length_insert; try done.
  by rewrite IH, length_insert.
Qed.

Lemma grayscale_below (data : list Z) (j i : nat) (heap : list Z) :
  (i < j)%nat → grayscale data j heap !! i = heap !! i.
Proof.
  revert j heap. induction data as [|r|r g|r g b|r g b a rest IH] using quad_ind;
    intros j heap Hi; simpl; rewrite ?list_lookup_insert_ne by lia; try done.
  rewrite IH by lia. by rewrite list_lookup_insert_ne by lia.
Qed.

Lemma grayscale_above (data : list Z) (j i n : nat) (heap : list Z) :
  (length data ≤ 4 * n)%nat → (j + n ≤ i)%nat → grayscale data j heap !! i = heap !! i.
Proof.
  revert j n heap. induction data as [|r|r g|r g b|r g b a rest IH] using quad_ind;
    intros j n heap Hn Hi; simpl in *; try done.
  1-3: rewrite list_lookup_insert_ne by lia; done.
  destruct n as [|n]; [lia|].
  rewrite (IH (S j) n) by lia. by rewrite list_lookup_insert_ne by lia.
Qed.

Lemma gray_bounds (r g b : Z) :
  0 ≤ r ≤ 255 → 0 ≤ g ≤ 255 → 0 ≤ b ≤ 255 →
  0 ≤ gray r g b ≤ 255
  ∧ Z.min r (Z.min g b) ≤ gray r g b ≤ Z.max r (Z.max g b)
  ∧ Uint8 (gray r g b) = gray r g b.
Proof.
  intros Hr Hg Hb. unfold gray, Uint8.
  rewrite Z.quot_div_nonneg by lia.
  assert (0 ≤ (r + g + b) `div` 3 ≤ 255) as H255.
  { split; [apply Z.div_pos; lia|]. apply Z.div_le_upper_bound; lia. }
  split; [done|]. split; [|by apply Z.mod_small; lia].
  split.
  - apply Z.div_le_lower_bound; lia.
  - apply Z.div_le_upper_bound; lia.
Qed.

Lemma grayscale_pixel (data : list Z) (j k : nat) (heap : list Z) (r g b : Z) :
  data !! (4 * k)%nat = Some r → data !! (4 * k + 1)%nat = Some g →
  data !! (4 * k + 2)%nat = Some b →
  (j + k < length heap)%nat →
  grayscale data j heap !! (j + k)%nat = Some (Uint8 (gray r g b)).
Proof.
  revert j k heap. induction data as [|r0|r0 g0|r0 g0 b0|r0 g0 b0 a0 rest IH] using quad_ind;
    intros j k heap Hr Hg Hb Hj.
  - done.
  - destruct k; simpl in *; done.
  - destruct k as [|k]; simpl in *; [done|]. destruct k; done.
  - destruct k as [|k].
    + simpl in *. simplify_eq. rewrite Nat.add_0_r. by rewrite list_lookup_insert_eq by lia.
    + replace (4 * S k)%nat with (S (S (S (S (4 * k))))) in Hr by lia. by simpl in Hr.
  - destruct k as [|k].
    + simpl in *. simplify_eq. rewrite Nat.add_0_r.
      rewrite grayscale_below by lia. by rewrite list_lookup_insert_eq by lia.
    + replace (4 * S k)%nat with (S (S (S (S (4 * k))))) in * by lia.
      simpl in Hr, Hg, Hb. simpl grayscale.
      replace (j + S k)%nat with (S j + k)%nat by lia.
      apply IH; try done. rewrite length_insert. lia.
Qed.

Lemma centre_same (a : Z) : centre a a = 0.
Proof.
  unfold centre. rewrite (Qfloor_comp _ (inject_Z 0)); [apply Qfloor_Z|].
  apply Qplus_opp_r.
Qed.

Lemma append_assoc (s1 s2 s3 : string) : (s1 +:+ s2) +:+ s3 = s1 +:+ (s2 +:+ s3).
Proof.
  induction s1 as [|c s1 IH]; [done|].
  change ((String c (s1 +:+ s2)) +:+ s3 = String c (s1 +:+ (s2 +:+ s3))).
  change (String c ((s1 +:+ s2) +:+ s3) = String c (s1 +:+ (s2 +:+ s3))).
  by rewrite IH.
Qed.

Lemma append_empty (s : string) : s +:+ "" = s.
Proof.
  induction s as [|c s IH]; [done|].
  change (String c (s +:+ "") = String c s). by rewrite IH.
Qed.

Lemma fromCharCode_app (l1 l2 : list Z) :
  fromCharCode (l1 ++ l2) = fromCharCode l1 +:+ fromCharCode l2.
Proof.
  unfold fromCharCode. induction l1 as [|b l1 IH]; [done|].
  cbn [app map String.string_of_list_ascii]. rewrite IH. reflexivity.
Qed.

Lemma fromCharCode_length (l : list Z) : String.length (fromCharCode l) = length l.
Proof. unfold fromCharCode. induction l as [|b l IH]; simpl; [done|]. by rewrite IH. Qed.

(** Calls that continue a result append to it. *)
Lemma callbacks_continue (rest : list Call) (s : string) :
  Forall (λ c, resultIndex c ≠ 0) rest →
  foldl (λ zx c, decodeCallback c zx) (Some s) rest
  = Some (s +:+ fromCharCode (concat (bytes <$> rest))).
Proof.
  revert s. induction rest as [|c rest IH]; intros s Hrest; simpl.
  - by rewrite append_empty.
  - inversion Hrest as [|? ? Hc Hrest']; subst.
    unfold decodeCallback at 2. rewrite decide_False by done. cbn [append_to].
    rewrite IH by done. cbn [fmap list_fmap concat]. by rewrite fromCharCode_app, append_assoc.
Qed.

(** A call with index 0 starts the result afresh. *)
Lemma callbacks_restart (pre rest : list Call) (c0 : Call) (zx : option string) :
  resultIndex c0 = 0 → Forall (λ c, resultIndex c ≠ 0) rest →
  foldl (λ zx c, decodeCallback c zx) zx (pre ++ c0 :: rest)
  = Some (fromCharCode (concat (bytes <$> c0 :: rest))).
Proof.
  intros H0 Hrest. rewrite foldl_app. simpl.
  unfold decodeCallback at 2. rewrite decide_True by done. cbn [append_to].
  rewrite callbacks_continue by done. cbn [fmap list_fmap concat]. by rewrite fromCharCode_app.
Qed.

(** X1.  The grey-scale loop of [analyze]: on image data of [n] pixels with
    channels in 0..255, and a buffer of [n] bytes that lies inside the heap,
    it leaves the heap's size alone, writes byte [k] of the buffer as the
    truncated mean of the red, green and blue channels of pixel [k] (alpha
    is ignored), a value in 0..255 between the smallest and the largest
    of the three, and changes no byte outside the buffer. *)
Theorem grayscale_fills_the_buffer (data heap : list Z) (p n : nat) :
  length data = (4 * n)%nat → Forall (λ v, 0 ≤ v ≤ 255) data →
  (p + n ≤ length heap)%nat →
  length (grayscale data p heap) = length heap
  ∧ (∀ i, (i < p ∨ p + n ≤ i)%nat → grayscale data p heap !! i = heap !! i)
  ∧ (∀ k, (k < n)%nat →
       ∃ r g b, data !! (4 * k)%nat = Some r ∧ data !! (4 * k + 1)%nat = Some g
                ∧ data !! (4 * k + 2)%nat = Some b
                ∧ grayscale data p heap !! (p + k)%nat = Some ((r + g + b) `div` 3)
                ∧ 0 ≤ (r + g + b) `div` 3 ≤ 255
                ∧ Z.min r (Z.min g b) ≤ (r + g + b) `div` 3 ≤ Z.max r (Z.max g b)).
Proof.
  intros Hlen Hdata Hheap. split; [apply grayscale_length|]. split.
  - intros i [Hi|Hi]; [by apply grayscale_below|].
    apply (grayscale_above _ _ _ n); lia.
  - intros k Hk.
    destruct (lookup_lt_is_Some_2 data (4 * k)) as [r Hr]; [lia|].
    destruct (lookup_lt_is_Some_2 data (4 * k + 1)) as [g Hg]; [lia|].
    destruct (lookup_lt_is_Some_2 data (4 * k + 2)) as [b Hb]; [lia|].
    exists r, g, b. repeat (split; [done|]).
    rewrite Forall_lookup in Hdata.
    destruct (gray_bounds r g b (Hdata _ _ Hr) (Hdata _ _ Hg) (Hdata _ _ Hb))
      as (H255 & Hmm & Hu).
    pose proof (grayscale_pixel data p k heap r g b Hr Hg Hb) as Hpix.
    rewrite Hu in Hpix. unfold gray in *.
    rewrite Z.quot_div_nonneg in H255, Hmm, Hpix
      by (pose proof (Hdata _ _ Hr); pose proof (Hdata _ _ Hg);
          pose proof (Hdata _ _ Hb); simpl in *; lia).
    split; [apply Hpix; lia|done].
Qed.

Lemma grayscale_fills_the_buffer_witness :
  grayscale [255; 0; 0; 255; 10; 20; 31; 255] 2 [7; 7; 7; 7; 7; 7] !! 3%nat
  = Some 20 ∧ grayscale [255; 0; 0; 255; 10; 20; 31; 255] 2 [7; 7; 7; 7; 7; 7] !! 4%nat
  = Some 7.
Proof.
  destruct (grayscale_fills_the_buffer [255; 0; 0; 255; 10; 20; 31; 255]
              [7; 7; 7; 7; 7; 7] 2 2) as (_ & Hout & Hin).
  - reflexivity.
  - repeat constructor; lia.
  - simpl. lia.
  - split; [|apply Hout; lia]. reflexivity.
Defined.

(** X2.  [analyze()] before it decodes: while the video reports no width
    it returns null and changes nothing; a call on a video that has a
    width while [imageBuffer] is still null (or a null pointer) only sets
    up (the sensor is the whole frame at (0, 0), the canvas gets its size,
    the buffer is allocated) and returns null, with the heap and the decode
    result untouched.  Once the buffer is allocated it is never replaced. *)
Theorem analyze_sets_up_before_decoding (h : Host) (a : analyzer) :
  (videoWidth a = 0 → analyze h a = (None, a))
  ∧ (videoWidth a ≠ 0 → imageBuffer a = None ∨ imageBuffer a = Some 0%nat →
       fst (analyze h a) = None
       ∧ imageBuffer (snd (analyze h a)) = Some (resize h (videoWidth a) (videoHeight a))
       ∧ sensorLeft (snd (analyze h a)) = Some 0
       ∧ sensorTop (snd (analyze h a)) = Some 0
       ∧ sensorWidth (snd (analyze h a)) = Some (videoWidth a)
       ∧ sensorHeight (snd (analyze h a)) = Some (videoHeight a)
       ∧ canvasWidth (snd (analyze h a)) = Some (videoWidth a)
       ∧ canvasHeight (snd (analyze h a)) = Some (videoHeight a)
       ∧ HEAPU8 (snd (analyze h a)) = HEAPU8 a
       ∧ zxDecodeResult (snd (analyze h a)) = zxDecodeResult a)
  ∧ (∀ p, imageBuffer a = Some (S p) → imageBuffer (snd (analyze h a)) = Some (S p)).
Proof.
  unfold analyze. split; [|split].
  - intros Hw. by rewrite decide_True.
  - intros Hw Hb. rewrite decide_False by done.
    destruct Hb as [-> | ->]; simpl; by rewrite !centre_same.
  - intros p Hb. case_decide; [done|]. rewrite Hb.
    destruct (decode_qr h _) as [[heap calls] err]. simpl.
    case_decide; [done|]. by case_match.
Qed.

(** X3.  What a decode returns: when the decoder's calls on the callback
    end with a call of index 0 followed by calls of other indices, the text
    is the characters of exactly those calls' bytes, in order; what came
    before the call of index 0, in this decode or an earlier one, is
    dropped.  The text is stored in the page global in any case and is
    returned, with the canvas, when the decoder reports no error; with an
    error [analyze()] returns null. *)
Theorem analyze_returns_the_last_sequence (h : Host) (a : analyzer) (p : nat)
    (heap : list Z) (pre rest : list Call) (c0 : Call) (err : Z) :
  videoWidth a ≠ 0 → imageBuffer a = Some (S p) →
  decode_qr h (grayscale (data h) (S p) (HEAPU8 a)) = (heap, pre ++ c0 :: rest, err) →
  resultIndex c0 = 0 → Forall (λ c, resultIndex c ≠ 0) rest →
  zxDecodeResult (snd (analyze h a)) = Some (fromCharCode (concat (bytes <$> c0 :: rest)))
  ∧ String.length (fromCharCode (concat (bytes <$> c0 :: rest)))
    = length (concat (bytes <$> c0 :: rest))
  ∧ HEAPU8 (snd (analyze h a)) = heap
  ∧ (err = 0 →
       fst (analyze h a)
       = Some {| result := fromCharCode (concat (bytes <$> c0 :: rest));
                 canvas := toDataURL h |})
  ∧ (err ≠ 0 → fst (analyze h a) = None).
Proof.
  intros Hw Hb Hd H0 Hrest. unfold analyze.
  rewrite decide_False by done. rewrite Hb, Hd.
  rewrite (callbacks_restart pre rest c0 _ H0 Hrest).
  split; [by case_decide|]. split; [apply fromCharCode_length|].
  split; [by case_decide|]. split.
  - intros ->. by rewrite decide_False by (by intros ?).
  - intros He. by rewrite decide_True.
Qed.

(** X4.  [analyze()] reads its result from the page global
    [window.zxDecodeResult] and never resets it itself: a decode that
    reports no error and makes no call on the callback returns whatever
    text an earlier decode left (nothing if none did), and a first call on
    the callback whose index is not 0 appends to the still undefined
    global, giving a text that starts with "undefined". *)
Theorem analyze_trusts_the_page_global (h : Host) (a : analyzer) (p : nat) (heap : list Z) :
  videoWidth a ≠ 0 → imageBuffer a = Some (S p) →
  (decode_qr h (grayscale (data h) (S p) (HEAPU8 a)) = (heap, [], 0) →
     fst (analyze h a)
     = (λ s, {| result := s; canvas := toDataURL h |}) <$> zxDecodeResult a
     ∧ zxDecodeResult (snd (analyze h a)) = zxDecodeResult a)
  ∧ (∀ c, decode_qr h (grayscale (data h) (S p) (HEAPU8 a)) = (heap, [c], 0) →
          resultIndex c ≠ 0 → zxDecodeResult a = None →
          fst (analyze h a)
          = Some {| result := "undefined" +:+ fromCharCode (bytes c);
                    canvas := toDataURL h |}).
Proof.
  intros Hw Hb. unfold analyze. rewrite decide_False by done. rewrite Hb. split.
  - intros ->. cbn [foldl]. rewrite decide_False by (by intros ?).
    by destruct (zxDecodeResult a).
  - intros c -> Hc Hz. cbn [foldl]. rewrite decide_False by (by intros ?).
    unfold decodeCallback. rewrite decide_False by done. by rewrite Hz.
Qed.

Lemma analyze_returns_the_last_sequence_witness :
  fst (analyze (host_with [call [63] 1 2; call [72; 105] 0 2; call [33] 1 2] 0)
               (analyzer_ready (Some "old")))
  = Some {| result := "Hi!"; canvas := "data:image/webp" |}.
Proof.
  refine (proj1 (proj2 (proj2 (proj2
            (analyze_returns_the_last_sequence
               (host_with [call [63] 1 2; call [72; 105] 0 2; call [33] 1 2] 0)
               (analyzer_ready (Some "old")) 0 [0; 85; 20; 0]
               [call [63] 1 2] [call [33] 1 2] (call [72; 105] 0 2) 0
               _ eq_refl eq_refl eq_refl _)))) eq_refl).
  - discriminate.
  - by repeat constructor.
Defined.

Lemma analyze_trusts_the_page_global_witness :
  fst (analyze (host_with [] 0) (analyzer_ready (Some "old")))
  = Some {| result := "old"; canvas := "data:image/webp" |}
  ∧ fst (analyze (host_with [call [72; 105] 1 2] 0) (analyzer_ready None))
    = Some {| result := "undefinedHi"; canvas := "data:image/webp" |}.
Proof.
  split.
  - refine (proj1 (proj1 (analyze_trusts_the_page_global (host_with [] 0)
                            (analyzer_ready (Some "old")) 0 [0; 85; 20; 0] _ eq_refl)
                     eq_refl)).
    discriminate.
  - refine (proj2 (analyze_trusts_the_page_global (host_with [call [72; 105] 1 2] 0)
                     (analyzer_ready None) 0 [0; 85; 20; 0] _ eq_refl)
                  (call [72; 105] 1 2) eq_refl _ eq_refl); discriminate.
Defined.

End AnalyzerProperties.

(** ** The tick counter *)

(** What one tick of a running loop does to the counter and to the
    analyzer. *)
Lemma tick_counts (w : World) :
  _active (_scanner w) = true →
  _active (_scanner (ScanProvider._scan w)) = true
  ∧ scanPeriod (_scanner (ScanProvider._scan w)) = scanPeriod (_scanner w)
  ∧ rafQueue (ScanProvider._scan w) = S (rafQueue w)
  ∧ (_frameCount (_scanner w) + 1 = scanPeriod (_scanner w) →
       _frameCount (_scanner (ScanProvider._scan w)) = 0
       ∧ analyzerCalls (ScanProvider._scan w) = S (analyzerCalls w))
  ∧ (_frameCount (_scanner w) + 1 ≠ scanPeriod (_scanner w) →
       _frameCount (_scanner (ScanProvider._scan w)) = _frameCount (_scanner w) + 1
       ∧ analyzerCalls (ScanProvider._scan w) = analyzerCalls w
       ∧ timers (ScanProvider._scan w) = timers w).
Proof.
  intros Ha. unfold ScanProvider._scan. rewrite Ha. simpl.
  case_decide as Hn.
  - simpl. repeat split; try done; try (intros; congruence).
  - unfold ScanProvider._analyze, Analyzer.analyze. simpl.
    repeat (case_decide || case_match || simplify_eq/=); repeat split; try done;
      try (intros; congruence).
Qed.




(** X6.  The comparison of the counter with [scanPeriod] is an equality
    test after the increment: once the counter has reached [scanPeriod]
    (the period was lowered by its setter, or is not positive) no later
    tick samples.  The loop keeps running and counting, the analyzer is
    never called again, nothing is queued or stored.  The counter is a
    JavaScript number, which counts exactly up to 2^53; the ticks
    considered are those that keep it within that range. *)
Theorem counter_past_period_never_samples (k : nat) (w : World) :
  _active (_scanner w) = true →
  0 ≤ _frameCount (_scanner w) →
  scanPeriod (_scanner w) ≤ _frameCount (_scanner w) →
  _frameCount (_scanner w) + Z.of_nat k ≤ 2 ^ 53 →
  _active (_scanner (Nat.iter k ScanProvider._scan w)) = true
  ∧ scanPeriod (_scanner (Nat.iter k ScanProvider._scan w)) = scanPeriod (_scanner w)
  ∧ _frameCount (_scanner (Nat.iter k ScanProvider._scan w))
    = _frameCount (_scanner w) + Z.of_nat k
  ∧ rafQueue (Nat.iter k ScanProvider._scan w) = (rafQueue w + k)%nat
  ∧ analyzerCalls (Nat.iter k ScanProvider._scan w) = analyzerCalls w
  ∧ timers (Nat.iter k ScanProvider._scan w) = timers w
  ∧ emitted (Nat.iter k ScanProvider._scan w) = emitted w.
Proof.
  intros Ha H0 Hle. induction k as [|k IH]; intros Hb.
  - simpl. repeat split; try done; lia.
  - rewrite Nat.iter_succ.
    destruct IH as (Ha' & Hp & Hc & Hq & Hcalls & Ht & He); [lia|].
    remember (Nat.iter k ScanProvider._scan w) as w' eqn:Ew. clear Ew.
    destruct (tick_counts w' Ha') as (Ha'' & Hp' & Hq' & _ & Hmiss).
    destruct (scan_view w') as (_ & _ & He').
    destruct Hmiss as (Hc' & Hcalls' & Ht'); [lia|].
    repeat split; try congruence; lia.
Qed.

Lemma counter_past_period_never_samples_witness :
  analyzerCalls
    (Nat.iter 100 ScanProvider._scan
       (Scanner.set_scanPeriod 2 (Nat.iter 3 ScanProvider._scan
          (ScanProvider.start (scanner_on (every 5) visible (always "ABC"))))))
  = 0%nat.
Proof.
  refine (proj1 (proj2 (proj2 (proj2 (proj2
            (counter_past_period_never_samples 100
               (Scanner.set_scanPeriod 2 (Nat.iter 3 ScanProvider._scan
                  (ScanProvider.start (scanner_on (every 5) visible (always "ABC")))))
               _ _ _ _)))))).
  - reflexivity.
  - by vm_compute.
  - by vm_compute.
  - by vm_compute.
Defined.

(** ** Scheduler, events and camera follow the state *)

Lemma status_emit (e : Event) (w : World) :
  status_events (emit e w) = status_events w ++ (if is_status e then [e] else []).
Proof.
  unfold status_events, emit. simpl. rewrite filter_app. f_equal.
  by destruct e.
Qed.

Lemma alternation_S (n : nat) :
  alternation (S n)
  = alternation n ++ [if Nat.even n then inactive_event else active_event].
Proof. unfold alternation. by rewrite seq_S, fmap_app. Qed.

Lemma alternation_length (n : nat) : length (alternation n) = n.
Proof. unfold alternation. by rewrite length_fmap, length_seq. Qed.

Lemma settled_ext (w1 w2 : World) :
  control w2 = control w1 → settled w1 → settled w2.
Proof.
  unfold control. intros [= Hcur Hcont Hact Hcam Hlog Hvid Hev].
  unfold settled, scheduler_follows_state, display_follows_state, camera_follows_state.
  by rewrite Hcur, Hcont, Hact, Hcam, Hlog, Hvid, Hev.
Qed.

Lemma control_scan (w : World) : control (ScanProvider._scan w) = control w.
Proof. unfold control, status_events. scan_cases; reflexivity. Qed.

Lemma control_manual_scan (w : World) : control (snd (ScanProvider.scan w)) = control w.
Proof. unfold control, status_events. scan_cases; reflexivity. Qed.

Lemma settled_move (s : State) (w : World) :
  settled w → current w ≠ active → s ≠ active → settled (enter_state s w).
Proof.
  unfold settled, scheduler_follows_state, display_follows_state, camera_follows_state.
  intros (Hs & Hd & Hc) Hcur Hs'. simpl.
  rewrite !(bool_decide_false (current w = active)) in * by done.
  by rewrite !(bool_decide_false (s = active)) by done.
Qed.

Lemma disableScan_with_camera (c : Camera) (w : World) :
  _camera w = Some c →
  _disableScan w
  = set_cameraLog (cameraLog w ++ [CameraStop (camId c)])
      (ScanProvider.stop
         (set_video {| srcObject := srcObject (video w); src := Some "";
                       classList := classList (video w) |} w)).
Proof. unfold _disableScan. simpl. by intros ->. Qed.

Lemma settled_leave (s : State) (w : World) :
  settled w → current w = active → s ≠ active →
  settled (enter_state s (emit_inactive (_disableScan w))).
Proof.
  unfold settled, scheduler_follows_state, display_follows_state, camera_follows_state.
  intros (Hs & (Hne & Halt & Heven & Hcls) & Hc) Hcur Hs'.
  rewrite !(bool_decide_true (current w = active)) in * by done.
  destruct Hc as (c & Hcam & Hopen & Hsrc & Hlast).
  rewrite !(bool_decide_false (s = active)) by done.
  rewrite (disableScan_with_camera c) by done.
  split; [|split].
  - simpl. by rewrite andb_false_r.
  - match goal with
    | |- context [status_events ?x] =>
        change (status_events x) with (status_events (emit inactive_event w))
    end.
    rewrite status_emit. simpl. rewrite length_app. simpl.
    rewrite Nat.add_1_r, alternation_S, <- Halt, Heven.
    split; [by intros [? _]%app_eq_nil|].
    split; [done|]. split; [by rewrite Nat.even_succ, <- Nat.negb_even, Heven|].
    simpl. by rewrite Hcls.
  - right. left. exists (camId c). simpl. by rewrite last_snoc.
Qed.

Lemma settled_enter (arg : option Camera) (w w' : World) :
  settled w → current w ≠ active → _enableScan arg w = (Resolved tt, w') →
  settled (enter_state active (emit_active w')).
Proof.
  unfold settled, scheduler_follows_state, display_follows_state, camera_follows_state.
  intros (Hs & (Hne & Halt & Heven & Hcls) & Hc) Hcur.
  rewrite !(bool_decide_false (current w = active)) in * by done.
  rewrite andb_false_r in Hs.
  rewrite !(bool_decide_true (active = active)) by done.
  unfold _enableScan, throw.
  destruct (match arg with Some c => Some c | None => _camera w end) as [c|] eqn:Hcam;
    [|done].
  destruct (opens c) eqn:Hopen; [|done]. intros [= <-].
  assert (∀ x, status_events (enter_state active (emit_active x))
               = status_events (emit active_event x)) as Hst by done.
  rewrite Hst, status_emit. simpl is_status. cbv iota. rewrite length_app.
  destruct (_continuous w) eqn:Hcont; simpl; rewrite ?Hcont; simpl.
  all: change (status_events _) with (status_events w).
  all: rewrite Nat.add_1_r, alternation_S, <- Halt, Heven, Hcls, last_snoc.
  all: rewrite Nat.even_succ, <- Nat.negb_even, Heven.
  all: repeat split; try done; try (by intros [? _]%app_eq_nil); by exists c.
Qed.

Lemma settled_refused (arg : option Camera) (w w' : World) (e : Error) :
  settled w → current w ≠ active → _enableScan arg w = (Rejected e, w') →
  settled w' ∧ current w' = current w.
Proof.
  unfold settled, scheduler_follows_state, display_follows_state, camera_follows_state.
  intros (Hs & Hd & Hc) Hcur.
  rewrite !(bool_decide_false (current w = active)) in * by done.
  unfold _enableScan, throw.
  destruct (match arg with Some c => Some c | None => _camera w end) as [c|] eqn:Hcam.
  - destruct (opens c) eqn:Hopen; [by destruct (_continuous w)|]. intros [= _ <-]. simpl.
    rewrite !(bool_decide_false (current w = active)) by done.
    split; [|done]. split; [done|]. split; [done|].
    right. right. exists c. by rewrite last_snoc.
  - intros [= _ <-]. simpl.
    rewrite !(bool_decide_false (current w = active)) by done.
    split; [|done]. split; [done|]. split; [done|].
    destruct Hc as [?|[?|(c & Hc & _)]]; [by left|by right; left|].
    destruct arg; congruence.
Qed.

Lemma settled_stop (arg : option Camera) (w : World) :
  settled w → settled (snd (fsm ev_stop arg w)).
Proof.
  intros H. rewrite fsm_stop_eq. destruct (current w) eqn:Hcur; simpl; [done|..].
  - apply settled_move; [done|congruence|done].
  - by apply settled_leave.
  - apply settled_move; [done|congruence|done].
Qed.

Lemma settled_deactivate (arg : option Camera) (w : World) :
  settled w → settled (snd (fsm ev_deactivate arg w)).
Proof.
  intros H. rewrite fsm_deactivate_eq. destruct (current w) eqn:Hcur; simpl; [done|..|done].
  - apply settled_move; [done|congruence|done].
  - by apply settled_leave.
Qed.

(** [activate] keeps what holds between operations; when it is rejected
    the machine is where it was. *)
Lemma settled_activate (arg : option Camera) (w : World) :
  settled w →
  settled (snd (fsm ev_activate arg w))
  ∧ (∀ e, fst (fsm ev_activate arg w) = Rejected e →
          current (snd (fsm ev_activate arg w)) = current w).
Proof.
  intros H. rewrite fsm_activate_eq. case_bool_decide as Hfrom; [|done].
  assert (current w ≠ active) as Hcur by (destruct Hfrom; congruence).
  case_bool_decide as Hvis.
  - destruct (_enableScan arg w) as [[[]|e] w'] eqn:Hen; simpl.
    + split; [by eapply settled_enter|done].
    + destruct (settled_refused arg w w' e H Hcur Hen) as [? ?]. by split.
  - simpl. split; [|done]. by apply settled_move.
Qed.

Lemma settled_start (arg : option Camera) (w : World) :
  settled w → settled (snd (fsm ev_start arg w)).
Proof.
  intros H. rewrite fsm_start_eq. case_bool_decide as Hcur; [|done].
  assert (settled (enter_state started w)) as Hs
    by (apply settled_move; [done|congruence|done]).
  destruct (settled_activate arg (enter_state started w) Hs) as [Hs' Hrej].
  destruct (fsm ev_activate arg (enter_state started w)) as [[[]|e] w']; simpl in *; [done|].
  apply settled_move; [done| |done]. by rewrite (Hrej e).
Qed.

Lemma settled_fsm (e : FsmEvent) (arg : option Camera) (w : World) :
  settled w → settled (snd (fsm e arg w)).
Proof.
  destruct e; [apply settled_start|apply settled_stop| |apply settled_deactivate].
  intros H. by apply settled_activate.
Qed.

Lemma settled_task (k : Task) (w : World) : settled w → settled (run_task k w).
Proof.
  intros H. destruct k; simpl.
  - by eapply settled_ext.
  - eapply settled_ext; [|done]. unfold control. by rewrite status_emit, app_nil_r.
  - case_match; [|done]. by apply settled_fsm.
Qed.

Lemma settled_tasks (l : list Timer) (w : World) :
  settled w → settled (foldl (λ w x, run_task (task x) w) w l).
Proof.
  revert w. induction l as [|x l IH]; intros w H; [done|].
  simpl. by apply IH, settled_task.
Qed.

Lemma settled_frame (w : World) : settled w → settled (animationFrame w).
Proof.
  intros H. unfold animationFrame. generalize (rafQueue w). intros n.
  induction n as [|n IH]; simpl; [by eapply settled_ext|].
  eapply settled_ext; [apply control_scan|done].
Qed.

Lemma settled_set_continuous (b : bool) (w : World) :
  settled w → settled (Scanner.set_continuous b w).
Proof.
  unfold settled, scheduler_follows_state, display_follows_state, camera_follows_state.
  intros (Hs & Hd & Hc). unfold Scanner.set_continuous.
  change (current (set_continuous_field b w)) with (current w).
  destruct (bool_decide (current w = active)) eqn:Hcur; destruct b; simpl;
    rewrite ?Hcur; done.
Qed.

Lemma settled_step (o : Op) (w : World) : settled w → settled (step o w).
Proof.
  intros H. destruct o; simpl.
  - by apply settled_frame.
  - apply settled_tasks. by eapply settled_ext.
  - unfold on_visibility. case_decide; [by eapply settled_ext|].
    case_match; [|by eapply settled_ext].
    apply settled_fsm. by eapply settled_ext.
  - unfold Scanner.start. case_match; [by apply settled_fsm|].
    rewrite Act_bind_eq.
    pose proof (settled_fsm ev_stop None w H) as Hs.
    destruct (fsm ev_stop None w) as [[[]|e] w']; simpl in *; [|done].
    by apply settled_fsm.
  - unfold Scanner.stop. case_match; [|done]. by apply settled_fsm.
  - eapply settled_ext; [apply control_manual_scan|done].
  - by apply settled_set_continuous.
  - by eapply settled_ext.
  - by eapply settled_ext.
  - by eapply settled_ext.
  - by eapply settled_ext.
Qed.

Lemma settled_run (ops : list Op) (w : World) : settled w → settled (run ops w).
Proof.
  revert w. induction ops as [|o ops IH]; intros w H; [done|].
  simpl. by apply IH, settled_step.
Qed.

Lemma settled_constructor (opts : Opts) (vis : VisibilityState)
    (feed : nat → option Analysis) (w : World) :
  constructor opts vis feed = Resolved w → settled w.
Proof.
  unfold constructor, _configureVideo.
  destruct (opt_video opts) as [tag|]; [case_decide; [done|]|]; intros [= <-].
  all: split; [|split].
  all: try (unfold scheduler_follows_state; simpl; by destruct (opt_continuous opts) as [[]|]).
  all: try done.
  all: by left.
Qed.

Lemma idle_frame (w : World) :
  _active (_scanner w) = false → animationFrame w = set_rafQueue 0%nat w.
Proof.
  intros Ha. unfold animationFrame. generalize (rafQueue w). intros n.
  induction n as [|n IH]; [done|].
  rewrite Nat.iter_succ, IH. unfold ScanProvider._scan. simpl. by rewrite Ha.
Qed.

Lemma last_alternation (n : nat) :
  last (alternation (S n)) = Some (if Nat.even n then inactive_event else active_event).
Proof. by rewrite alternation_S, last_snoc. Qed.

(** X7.  After any sequence of operations on a scanner the sampling loop
    is switched on exactly when the machine is in [active] and continuous
    mode is set.  In every other situation an animation frame finds the
    registered ticks switched off: it drops them and changes nothing
    else. *)
Theorem loop_runs_only_in_active (opts : Opts) (vis : VisibilityState)
    (feed : nat → option Analysis) (w : World) (ops : list Op) :
  constructor opts vis feed = Resolved w →
  (_active (_scanner (run ops w)) = true
   ↔ current (run ops w) = active ∧ _continuous (run ops w) = true)
  ∧ (current (run ops w) ≠ active ∨ _continuous (run ops w) = false →
       step Frame (run ops w) = set_rafQueue 0%nat (run ops w)
       ∧ step Frame (step Frame (run ops w)) = step Frame (run ops w)).
Proof.
  intros Hnew.
  destruct (settled_run ops w (settled_constructor _ _ _ _ Hnew)) as (Hs & _ & _).
  unfold scheduler_follows_state in Hs.
  assert (_active (_scanner (run ops w)) = true
          ↔ current (run ops w) = active ∧ _continuous (run ops w) = true) as Hiff.
  { rewrite Hs, andb_true_iff, bool_decide_eq_true. tauto. }
  split; [done|]. intros Hoff.
  assert (_active (_scanner (run ops w)) = false) as Hidle.
  { destruct (_active (_scanner (run ops w))); [|done].
    destruct Hiff as [Hiff _]. destruct (Hiff eq_refl) as [? ?].
    destruct Hoff; congruence. }
  simpl. rewrite (idle_frame _ Hidle). split; [done|].
  by rewrite idle_frame.
Qed.

Lemma loop_runs_only_in_active_witness :
  step Frame (run [Start (Some front_camera); Frame; VisibilityChange hidden; Stop]
                  (scanner_on no_opts visible (always "ABC")))
  = set_rafQueue 0%nat
      (run [Start (Some front_camera); Frame; VisibilityChange hidden; Stop]
           (scanner_on no_opts visible (always "ABC"))).
Proof.
  refine (proj1 (proj2 (loop_runs_only_in_active no_opts visible (always "ABC")
                          (scanner_on no_opts visible (always "ABC"))
                          [Start (Some front_camera); Frame; VisibilityChange hidden; Stop]
                          eq_refl) _)).
  left. vm_compute. discriminate.
Defined.

(** X8.  After any sequence of operations the [active] and [inactive]
    events delivered so far alternate, beginning with the [inactive] of the
    constructor; the last of them is [active] exactly when the machine is
    in [active], and the video element carries the class [active] exactly
    then and the class [inactive] exactly otherwise. *)
Theorem status_events_alternate (opts : Opts) (vis : VisibilityState)
    (feed : nat → option Analysis) (w : World) (ops : list Op) :
  constructor opts vis feed = Resolved w →
  status_events (run ops w) = alternation (length (status_events (run ops w)))
  ∧ (last (status_events (run ops w)) = Some active_event ↔ current (run ops w) = active)
  ∧ (last (status_events (run ops w)) = Some inactive_event ↔ current (run ops w) ≠ active)
  ∧ ("active" ∈ classList (video (run ops w)) ↔ current (run ops w) = active)
  ∧ ("inactive" ∈ classList (video (run ops w)) ↔ current (run ops w) ≠ active).
Proof.
  intros Hnew.
  destruct (settled_run ops w (settled_constructor _ _ _ _ Hnew))
    as (_ & (Hne & Halt & Heven & Hcls) & _).
  split; [done|]. rewrite Hcls, Halt.
  destruct (length (status_events (run ops w))) as [|n] eqn:Hlen.
  { by apply nil_length_inv in Hlen. }
  rewrite last_alternation. rewrite Nat.even_succ, <- Nat.negb_even in Heven.
  rewrite !list_elem_of_singleton.
  case_bool_decide as Hcur; destruct (Nat.even n); try done; naive_solver.
Qed.

Lemma status_events_alternate_witness :
  status_events (run [Start (Some front_camera); Frame; Elapse 0; VisibilityChange hidden;
                      Stop; Start (Some rear_camera)]
                     (scanner_on no_opts visible (always "ABC")))
  = alternation
      (length (status_events
                 (run [Start (Some front_camera); Frame; Elapse 0; VisibilityChange hidden;
                       Stop; Start (Some rear_camera)]
                      (scanner_on no_opts visible (always "ABC"))))).
Proof.
  exact (proj1 (status_events_alternate no_opts visible (always "ABC")
                  (scanner_on no_opts visible (always "ABC"))
                  [Start (Some front_camera); Frame; Elapse 0; VisibilityChange hidden;
                   Stop; Start (Some rear_camera)] eq_refl)).
Defined.



(** ** A stored content has its clearing timer *)

Lemma paired_ext (w1 w2 : World) :
  timers w2 = timers w1 →
  _lastResult (_scanner w2) = _lastResult (_scanner w1) →
  refractoryTimeout (_scanner w2) = refractoryTimeout (_scanner w1) →
  dedup_paired w1 → dedup_paired w2.
Proof. unfold dedup_paired. by intros -> -> ->. Qed.

(** [clearTimeout(this.refractoryTimeout)] leaves no clearing timer. *)
Lemma paired_clear (w : World) :
  dedup_paired w →
  filter (λ x, clears x) (without (refractoryTimeout (_scanner w)) (timers w)) = [].
Proof.
  unfold dedup_paired. destruct (_lastResult (_scanner w)) as [c|].
  - intros (_ & t & Ht & ->). simpl. rewrite filter_comm, Ht, filter_cons, filter_nil.
    by rewrite decide_False by (by intros ?).
  - intros Hnone. destruct (refractoryTimeout (_scanner w)); simpl; [|done].
    by rewrite filter_comm, Hnone.
Qed.

Lemma paired_analyze (skipDups : bool) (w : World) :
  dedup_paired w → dedup_paired (snd (ScanProvider._analyze skipDups w)).
Proof.
  intros H. pose proof (paired_clear w H) as Hclear.
  unfold ScanProvider._analyze, Analyzer.analyze. simpl.
  destruct (analyzerFeed w (analyzerCalls w)) as [a|]; [|by eapply paired_ext].
  case_decide as Hempty; [by eapply paired_ext|].
  destruct (skipDups && bool_decide (Some (result a) = _lastResult (_scanner w)));
    [by eapply paired_ext|].
  unfold dedup_paired. simpl. split; [done|].
  eexists. rewrite filter_app, Hclear, filter_cons, filter_nil. simpl. done.
Qed.

Lemma paired_tick (w : World) : dedup_paired w → dedup_paired (ScanProvider._scan w).
Proof.
  intros H. unfold ScanProvider._scan. destruct (negb (_active (_scanner w))); [done|].
  simpl. case_decide; [by eapply paired_ext|].
  match goal with |- context [ScanProvider._analyze true ?x] =>
    assert (dedup_paired x) as Hx by (by eapply paired_ext);
    pose proof (paired_analyze true x Hx) as Ha;
    destruct (ScanProvider._analyze true x) as [[p|] w'] end; simpl in *; [|done].
  unfold dedup_paired in *. simpl.
  by rewrite filter_app, filter_cons, filter_nil, app_nil_r.
Qed.

(** Running due timers never stores a content. *)
Lemma tasks_clear (l : list Timer) (w : World) :
  filter (λ t, clears t) l ≠ [] →
  _lastResult (_scanner (foldl (λ w x, run_task (task x) w) w l)) = None.
Proof.
  revert w. induction l as [|t l IH]; intros w Hne; [done|]. simpl.
  destruct (decide (filter (λ t, clears t) l = [])) as [Hl|Hl]; [|by apply IH].
  destruct (run_tasks_effect l "" (run_task (task t) w)) as (_ & _ & _ & _ & _ & _ & Hk).
  simpl in Hk. rewrite (Hk Hl).
  destruct t as [i d k]. rewrite filter_cons in Hne.
  destruct k; simpl in *; done.
Qed.

Lemma paired_elapse (dt : nat) (w : World) : dedup_paired w → dedup_paired (elapse dt w).
Proof.
  intros H. unfold elapse.
  match goal with |- context [foldl ?f ?w0 ?l] =>
    pose proof (tasks_clear l w0) as Hclr;
    destruct (run_tasks_effect l "" w0) as (Ht & _ & _ & Hh & _ & _ & Hkeep) end.
  unfold dedup_paired in *. rewrite Ht, Hh. simpl in *.
  assert (∀ l, filter (λ x, clears x) (by_due l) = [] ↔ filter (λ x, clears x) l = [])
    as Hperm.
  { intros l. pose proof (filter_Permutation (λ x, clears x) _ _ (by_due_perm l)) as Hp.
    split; intros E; rewrite E in Hp.
    - by apply Permutation_nil_l in Hp.
    - by apply Permutation_nil_r in Hp. }
  rewrite Hperm in Hkeep. rewrite Hperm in Hclr.
  rewrite (filter_comm (λ x, clears x)) in Hkeep, Hclr.
  rewrite (filter_comm (λ x, clears x)).
  destruct (_lastResult (_scanner w)) as [c|].
  - destruct H as (Hc & t & Hl & Hid). rewrite Hl in *.
    rewrite !filter_cons, !filter_nil in *.
    destruct (decide (due t ≤ now w + Z.of_nat dt)) as [Hdue|Hdue].
    + rewrite decide_False by tauto. by rewrite Hclr.
    + rewrite decide_True by done. rewrite Hkeep by done. split; [done|]. by exists t.
  - rewrite H in *. rewrite filter_nil in *. by rewrite Hkeep.
Qed.

Lemma fsm_keeps_content (e : FsmEvent) (arg : option Camera) (w : World) :
  _lastResult (_scanner (snd (fsm e arg w))) = _lastResult (_scanner w).
Proof.
  destruct e.
  - rewrite fsm_start_eq, fsm_activate_eq. unfold _enableScan, throw.
    repeat (case_bool_decide || case_match || simplify_eq/=); done.
  - rewrite fsm_stop_eq. unfold _disableScan. repeat (case_match || simplify_eq/=); done.
  - rewrite fsm_activate_eq. unfold _enableScan, throw.
    repeat (case_bool_decide || case_match || simplify_eq/=); done.
  - rewrite fsm_deactivate_eq. unfold _disableScan. repeat (case_match || simplify_eq/=); done.
Qed.

Lemma paired_fsm (e : FsmEvent) (arg : option Camera) (w : World) :
  dedup_paired w → dedup_paired (snd (fsm e arg w)).
Proof.
  destruct (fsm_keeps_timers e arg w) as [? ?]. pose proof (fsm_keeps_content e arg w).
  by apply paired_ext.
Qed.

Lemma paired_step (o : Op) (w : World) : dedup_paired w → dedup_paired (step o w).
Proof.
  intros H. destruct o; simpl.
  - unfold animationFrame. generalize (rafQueue w). intros n.
    induction n as [|n IH]; simpl; [by eapply paired_ext|by apply paired_tick].
  - by apply paired_elapse.
  - unfold on_visibility. case_decide.
    + unfold dedup_paired in *. simpl.
      by rewrite filter_app, filter_cons, filter_nil, app_nil_r.
    + case_match; [|by eapply paired_ext]. apply paired_fsm. by eapply paired_ext.
  - unfold Scanner.start. case_match; [by apply paired_fsm|].
    rewrite Act_bind_eq.
    pose proof (paired_fsm ev_stop None w H) as Hs.
    destruct (fsm ev_stop None w) as [[[]|e] w']; simpl in *; [|done].
    by apply paired_fsm.
  - unfold Scanner.stop. case_match; [|done]. by apply paired_fsm.
  - by apply paired_analyze.
  - unfold Scanner.set_continuous. case_match; by eapply paired_ext.
  - by eapply paired_ext.
  - by eapply paired_ext.
  - by eapply paired_ext.
  - by eapply paired_ext.
Qed.

Lemma paired_run (ops : list Op) (w : World) : dedup_paired w → dedup_paired (run ops w).
Proof.
  revert w. induction ops as [|o ops IH]; intros w H; [done|].
  simpl. by apply IH, paired_step.
Qed.

Lemma paired_constructor (opts : Opts) (vis : VisibilityState)
    (feed : nat → option Analysis) (w : World) :
  constructor opts vis feed = Resolved w → dedup_paired w.
Proof.
  unfold constructor. destruct (_configureVideo opts); [|done]. by intros [= <-].
Qed.

Lemma clears_by_due (l : list Timer) :
  filter (λ x, clears x) (by_due l) = [] ↔ filter (λ x, clears x) l = [].
Proof.
  pose proof (filter_Permutation (λ x, clears x) _ _ (by_due_perm l)) as Hp.
  split; intros E; rewrite E in Hp.
  - by apply Permutation_nil_l in Hp.
  - by apply Permutation_nil_r in Hp.
Qed.

(** The clearing timer, once due, clears. *)
Lemma elapse_clears (dt : nat) (t : Timer) (w : World) :
  filter (λ x, clears x) (timers w) = [t] →
  due t ≤ now w + Z.of_nat dt →
  _lastResult (_scanner (elapse dt w)) = None.
Proof.
  intros Hl Hdue. unfold elapse. apply tasks_clear. simpl.
  rewrite clears_by_due, filter_comm, Hl, filter_cons, filter_nil.
  by rewrite decide_True.
Qed.

(** X10.  After any sequence of operations: while no content is stored no
    timer that clears it is pending; while a content is stored it is not
    the empty string, exactly one clearing timer is pending, it is the one
    [refractoryTimeout] names, and as soon as time has reached its due time
    the content is cleared and no clearing timer is left.  Suppression of a
    content never outlives its timer. *)
Theorem stored_content_has_its_timer (opts : Opts) (vis : VisibilityState)
    (feed : nat → option Analysis) (w : World) (ops : list Op) :
  constructor opts vis feed = Resolved w →
  (_lastResult (_scanner (run ops w)) = None →
     filter (λ x, clears x) (timers (run ops w)) = [])
  ∧ (∀ c, _lastResult (_scanner (run ops w)) = Some c →
       c ≠ ""
       ∧ ∃ t, filter (λ x, clears x) (timers (run ops w)) = [t]
              ∧ refractoryTimeout (_scanner (run ops w)) = Some (tid t)
              ∧ ∀ dt, due t ≤ now (run ops w) + Z.of_nat dt →
                  _lastResult (_scanner (elapse dt (run ops w))) = None
                  ∧ filter (λ x, clears x) (timers (elapse dt (run ops w))) = []).
Proof.
  intros Hnew.
  pose proof (paired_run ops w (paired_constructor _ _ _ _ Hnew)) as H.
  split.
  - intros Hnone. unfold dedup_paired in H. by rewrite Hnone in H.
  - intros c Hc. pose proof H as H'. unfold dedup_paired in H'. rewrite Hc in H'.
    destruct H' as (Hne & t & Hl & Hid). split; [done|]. exists t.
    split; [done|]. split; [done|]. intros dt Hdue.
    pose proof (elapse_clears dt t _ Hl Hdue) as Hclr. split; [done|].
    pose proof (paired_elapse dt _ H) as He. unfold dedup_paired in He.
    by rewrite Hclr in He.
Qed.

Lemma stored_content_has_its_timer_witness :
  ∃ t, filter (λ x, clears x)
         (timers (run [Start (Some front_camera); Frame; Elapse 100; SetRefractoryPeriod 10;
                       Frame; Stop]
                      (scanner_on no_opts visible (always "ABC")))) = [t]
       ∧ _lastResult (_scanner
           (elapse (Z.to_nat (due t))
              (run [Start (Some front_camera); Frame; Elapse 100; SetRefractoryPeriod 10;
                    Frame; Stop]
                   (scanner_on no_opts visible (always "ABC"))))) = None.
Proof.
  destruct (proj2 (stored_content_has_its_timer no_opts visible (always "ABC")
                     (scanner_on no_opts visible (always "ABC"))
                     [Start (Some front_camera); Frame; Elapse 100; SetRefractoryPeriod 10;
                      Frame; Stop] eq_refl) "ABC")
    as (_ & t & Hl & _ & Hclr).
  - vm_compute. reflexivity.
  - exists t. split; [exact Hl|]. apply Hclr.
    assert (0 ≤ now (run [Start (Some front_camera); Frame; Elapse 100;
                          SetRefractoryPeriod 10; Frame; Stop]
                         (scanner_on no_opts visible (always "ABC")))) by (by vm_compute).
    lia.
Defined.

(** ** Stopping *)

Lemma can_activate_eq (w : World) :
  can ev_activate w = bool_decide (current w = started ∨ current w = inactive).
Proof. by_cases_of w; reflexivity. Qed.

Lemma can_deactivate_eq (w : World) :
  can ev_deactivate w = bool_decide (current w = started ∨ current w = active).
Proof. by_cases_of w; reflexivity. Qed.

(** [stop()] written out by the state it is called in. *)
Lemma stop_eq (w : World) :
  Scanner.stop w =
  (Resolved tt,
   match current w with
   | stopped => w
   | active => enter_state stopped (emit_inactive (_disableScan w))
   | _ => enter_state stopped w
   end).
Proof.
  unfold Scanner.stop. rewrite can_stop_eq, fsm_stop_eq.
  by destruct (current w).
Qed.

(** X11.  [stop()] never rejects and always leaves the machine in
    [stopped]; on a stopped scanner it does nothing, so a second [stop()]
    changes nothing.  From [active] it switches the loop off, stops the
    recorded camera, empties [video.src] and emits one [inactive]; from
    [started] or [inactive] it only changes the state.  It leaves the
    stream attached to the video element, and it cancels no timer: the
    refractory timer and the scan events already queued stay pending, and
    the stored content and the tick counter are kept. *)
Theorem stop_never_rejects (w : World) :
  fst (Scanner.stop w) = Resolved tt
  ∧ current (snd (Scanner.stop w)) = stopped
  ∧ (current w = stopped → snd (Scanner.stop w) = w)
  ∧ Scanner.stop (snd (Scanner.stop w)) = (Resolved tt, snd (Scanner.stop w))
  ∧ (current w = active →
       _active (_scanner (snd (Scanner.stop w))) = false
       ∧ cameraLog (snd (Scanner.stop w)) = cameraLog w ++ release_calls w
       ∧ src (video (snd (Scanner.stop w))) = Some ""
       ∧ emitted (snd (Scanner.stop w)) = emitted w ++ [inactive_event])
  ∧ (current w ≠ active →
       _active (_scanner (snd (Scanner.stop w))) = _active (_scanner w)
       ∧ cameraLog (snd (Scanner.stop w)) = cameraLog w
       ∧ video (snd (Scanner.stop w)) = video w
       ∧ emitted (snd (Scanner.stop w)) = emitted w)
  ∧ srcObject (video (snd (Scanner.stop w))) = srcObject (video w)
  ∧ timers (snd (Scanner.stop w)) = timers w
  ∧ _lastResult (_scanner (snd (Scanner.stop w))) = _lastResult (_scanner w)
  ∧ _frameCount (_scanner (snd (Scanner.stop w))) = _frameCount (_scanner w).
Proof.
  rewrite !stop_eq. simpl.
  split; [done|]. split; [by destruct (current w) eqn:E; simpl|].
  split; [by intros ->|].
  split; [by destruct (current w) eqn:E; simpl; rewrite ?E|].
  unfold release_calls, _disableScan. simpl.
  destruct (current w), (_camera w); simpl.
  all: repeat match goal with
       | |- _ ∧ _ => split
       | |- _ → _ => intros ?
       end; try done.
  all: by rewrite app_nil_r.
Qed.

Lemma stopped_tasks (l : list Timer) (w : World) :
  current w = stopped → current (foldl (λ w x, run_task (task x) w) w l) = stopped.
Proof.
  revert w. induction l as [|t l IH]; intros w Hcur; [done|]. simpl. apply IH.
  destruct (task t); simpl; [done..|].
  rewrite can_activate_eq, bool_decide_false; [done|]. rewrite Hcur. by intros [|].
Qed.

(** X12.  [stop()] does not cancel the [scan] events the loop has queued
    with [setTimeout(..., 0)]: what has been produced for a content stays
    produced, and when time passes after [stop()] every queued event that
    is due is delivered to the listeners although the machine is, and
    stays, in [stopped]. *)
Theorem queued_scan_events_outlive_stop (w : World) (c : string) (dt : nat) :
  produced c (snd (Scanner.stop w)) = produced c w
  ∧ scans_delivered c (elapse dt (snd (Scanner.stop w)))
    = (scans_delivered c w
       + length (filter (λ t, emits c t)
                   (filter (λ t, (due t ≤ now w + Z.of_nat dt)%Z) (timers w))))%nat
  ∧ current (elapse dt (snd (Scanner.stop w))) = stopped.
Proof.
  assert (timers (snd (Scanner.stop w)) = timers w
          ∧ now (snd (Scanner.stop w)) = now w
          ∧ scans_delivered c (snd (Scanner.stop w)) = scans_delivered c w
          ∧ current (snd (Scanner.stop w)) = stopped) as (Ht & Hn & Hs & Hcur).
  { rewrite stop_eq. unfold scans_delivered, _disableScan. simpl.
    destruct (current w) eqn:E, (_camera w); simpl; repeat split; try done.
    all: by rewrite filter_app, filter_cons, filter_nil, app_nil_r. }
  remember (snd (Scanner.stop w)) as w1 eqn:E. clear E.
  split; [|split].
  - unfold produced. unfold scans_delivered in Hs. by rewrite Hs, Ht.
  - unfold elapse.
    match goal with |- context [foldl ?f ?w0 ?l] =>
      destruct (run_tasks_effect l c w0) as (_ & _ & _ & _ & _ & -> & _) end.
    rewrite (filter_Permutation _ _ _ (by_due_perm _)). simpl.
    rewrite Ht, Hn. f_equal. exact Hs.
  - unfold elapse. by apply stopped_tasks.
Qed.

(** ** Construction *)

(** X13.  [new Scanner(opts)] throws exactly when a video element is
    supplied whose tag is not VIDEO.  Otherwise the scanner starts in
    [stopped] with the loop off, no camera, no timer, and one [inactive]
    event delivered; a [scanPeriod] or [refractoryPeriod] that is absent or
    0 is replaced by 1 and 5000, so neither is ever 0, while any other
    number, a negative one too, is taken as it is; [backgroundScan] and
    [continuous] are off only when given as false, [captureImage] is on
    only when given as true. *)
Theorem constructor_checks_and_defaults (opts : Opts) (vis : VisibilityState)
    (feed : nat → option Analysis) :
  (∀ e, constructor opts vis feed = Rejected e
        ↔ e = JsError "Video must be a <video> element."
          ∧ ∃ tag, opt_video opts = Some tag ∧ tag ≠ "VIDEO")
  ∧ (∀ w, constructor opts vis feed = Resolved w →
       current w = stopped ∧ emitted w = [inactive_event]
       ∧ classList (video w) = ["inactive"]
       ∧ _active (_scanner w) = false ∧ _frameCount (_scanner w) = 0
       ∧ _lastResult (_scanner w) = None
       ∧ _camera w = None ∧ cameraLog w = [] ∧ timers w = [] ∧ rafQueue w = 0%nat
       ∧ visibility w = vis
       ∧ scanPeriod (_scanner w) ≠ 0 ∧ refractoryPeriod (_scanner w) ≠ 0
       ∧ (opt_scanPeriod opts = None ∨ opt_scanPeriod opts = Some 0 →
            scanPeriod (_scanner w) = 1)
       ∧ (∀ n, opt_scanPeriod opts = Some n → n ≠ 0 → scanPeriod (_scanner w) = n)
       ∧ (opt_refractoryPeriod opts = None ∨ opt_refractoryPeriod opts = Some 0 →
            refractoryPeriod (_scanner w) = 5000)
       ∧ (∀ n, opt_refractoryPeriod opts = Some n → n ≠ 0 →
               refractoryPeriod (_scanner w) = n)
       ∧ (backgroundScan w = false ↔ opt_backgroundScan opts = Some false)
       ∧ (_continuous w = false ↔ opt_continuous opts = Some false)
       ∧ (captureImage (_scanner w) = true ↔ opt_captureImage opts = Some true)).
Proof.
  unfold constructor, _configureVideo. split.
  - intros e. destruct (opt_video opts) as [tag|]; [case_decide|].
    + split; [intros [= <-]; split; [done|by exists tag]|by intros [-> _]].
    + split; [done|]. intros (_ & tag' & [= <-] & ?). done.
    + split; [done|]. by intros (_ & tag' & ? & _).
  - intros w Hw.
    assert (w = emit_inactive {|
      now := 0; nextTimer := 0%nat; timers := []; rafQueue := 0%nat;
      visibility := vis; analyzerFeed := feed; analyzerCalls := 0%nat; cameraLog := [];
      _scanner := {| scanPeriod := number_or (opt_scanPeriod opts) 1;
                     captureImage := default false (opt_captureImage opts);
                     refractoryPeriod := number_or (opt_refractoryPeriod opts) (5 * 1000);
                     _frameCount := 0; _lastResult := None; _active := false;
                     refractoryTimeout := None |};
      video := {| srcObject := None; src := None; classList := [] |};
      backgroundScan := default true (opt_backgroundScan opts);
      _continuous := default true (opt_continuous opts);
      _camera := None;
      current := stopped;
      history := [stopped];
      emitted := [] |}) as ->.
    { destruct (opt_video opts) as [tag|]; [case_decide; [done|]|]; by injection Hw. }
    simpl. unfold number_or.
    destruct (opt_scanPeriod opts) as [n|], (opt_refractoryPeriod opts) as [m|],
      (opt_backgroundScan opts) as [[]|], (opt_continuous opts) as [[]|],
      (opt_captureImage opts) as [[]|]; simpl.
    all: repeat case_decide.
    all: repeat match goal with
         | |- _ ∧ _ => split
         | |- _ ↔ _ => split
         | |- ∀ _, _ => intros ?
         end; try done; try lia; try congruence.
    all: destruct_or?; congruence.
Qed.

(** ** Visibility of the page *)

Lemma tasks_preserve (P : World → Prop) (l : list Timer) (w : World) :
  (∀ k x, P x → P (run_task k x)) → P w → P (foldl (λ w x, run_task (task x) w) w l).
Proof.
  intros Hstep. revert w. induction l as [|t l IH]; intros w H; [done|].
  simpl. by apply IH, Hstep.
Qed.

Lemma activate_without_camera (log : list CameraCall) (w : World) :
  waiting_without_camera log w →
  fst (fsm ev_activate None w) = Rejected (JsError "Camera is not defined.")
  ∧ waiting_without_camera log (snd (fsm ev_activate None w)).
Proof.
  intros (Hcur & Hcam & Hlog & Hvis). rewrite fsm_activate_eq.
  rewrite bool_decide_true by (by right). rewrite bool_decide_true by done.
  unfold _enableScan, throw. rewrite Hcam. by simpl.
Qed.

Lemma waiting_task (log : list CameraCall) (k : Task) (w : World) :
  waiting_without_camera log w → waiting_without_camera log (run_task k w).
Proof.
  intros H. destruct k; simpl; [done..|].
  case_match; [|done]. by apply activate_without_camera.
Qed.

(** X14.  A camera handed to [start()] while the page is not visible is
    not recorded: the call resolves, the machine goes to [inactive], no
    call is made on the camera.  When the page becomes visible again the
    deferred [activate()] has no camera to take, is rejected with "Camera
    is not defined.", and the scanner stays in [inactive] with the camera
    untouched, however much time passes. *)
Theorem camera_given_while_hidden_is_forgotten (w : World) (cam : Camera) (dt : nat) :
  current w = stopped → _camera w = None → visibility w ≠ visible →
  fst (Scanner.start (Some cam) w) = Resolved tt
  ∧ current (snd (Scanner.start (Some cam) w)) = inactive
  ∧ _camera (snd (Scanner.start (Some cam) w)) = None
  ∧ cameraLog (snd (Scanner.start (Some cam) w)) = cameraLog w
  ∧ fst (fsm ev_activate None
           (set_visibility visible (snd (Scanner.start (Some cam) w))))
    = Rejected (JsError "Camera is not defined.")
  ∧ current (run [VisibilityChange visible; Elapse dt]
                 (snd (Scanner.start (Some cam) w))) = inactive
  ∧ _camera (run [VisibilityChange visible; Elapse dt]
                 (snd (Scanner.start (Some cam) w))) = None
  ∧ cameraLog (run [VisibilityChange visible; Elapse dt]
                   (snd (Scanner.start (Some cam) w))) = cameraLog w.
Proof.
  intros Hcur Hcam Hvis.
  assert (Scanner.start (Some cam) w
          = (Resolved tt, enter_state inactive (enter_state started w))) as ->.
  { unfold Scanner.start. rewrite can_start_eq, bool_decide_true by done.
    rewrite fsm_start_eq, bool_decide_true by done.
    rewrite fsm_activate_eq.
    change (current (enter_state started w)) with started.
    change (visibility (enter_state started w)) with (visibility w).
    rewrite (bool_decide_true (started = started ∨ started = inactive)) by (by left).
    by rewrite (bool_decide_false (visibility w = visible)). }
  simpl fst. simpl snd.
  assert (waiting_without_camera (cameraLog w)
            (set_visibility visible (enter_state inactive (enter_state started w))))
    as Hwait by done.
  split; [done|]. split; [done|]. split; [done|]. split; [done|].
  split; [by eapply proj1, activate_without_camera|].
  assert (waiting_without_camera (cameraLog w)
            (run [VisibilityChange visible; Elapse dt]
                 (enter_state inactive (enter_state started w)))) as (? & ? & ? & _); [|done].
  simpl. unfold on_visibility. rewrite decide_True by done.
  unfold elapse. apply tasks_preserve; [apply waiting_task|done].
Qed.

Lemma camera_given_while_hidden_is_forgotten_witness :
  current (run [VisibilityChange visible; Elapse 1000]
               (snd (Scanner.start (Some front_camera)
                       (scanner_on no_opts hidden (always "ABC"))))) = inactive.
Proof.
  refine (proj1 (proj2 (proj2 (proj2 (proj2 (proj2
            (camera_given_while_hidden_is_forgotten
               (scanner_on no_opts hidden (always "ABC")) front_camera 1000
               eq_refl eq_refl _))))))).
  discriminate.
Defined.

Lemma resumed_task (c : Camera) (cont : bool) (log : list CameraCall) (k : Task) (w : World) :
  resumed c cont log w → resumed c cont log (run_task k w).
Proof.
  intros H. destruct k; simpl; [done..|].
  rewrite can_activate_eq, bool_decide_false; [done|].
  destruct H as (_ & _ & _ & -> & _). by intros [|].
Qed.

Lemma suspended_task (c : Camera) (cont : bool) (log : list CameraCall) (k : Task)
    (w : World) :
  opens c = true → suspended c cont log w →
  if decide (k = ActivateIfPossible) then resumed c cont log (run_task k w)
  else suspended c cont log (run_task k w).
Proof.
  intros Hopen (Hvis & Hcam & Hcont & Hcur & Hlog & Hact).
  destruct k; simpl; [done..|].
  rewrite can_activate_eq, bool_decide_true by (by right).
  rewrite fsm_activate_eq.
  rewrite bool_decide_true by (by right). rewrite bool_decide_true by done.
  unfold _enableScan, throw. rewrite Hcam, Hopen. simpl. rewrite Hcont.
  unfold resumed. destruct cont; simpl; by rewrite ?Hlog.
Qed.

Lemma suspended_tasks (c : Camera) (cont : bool) (log : list CameraCall) (l : list Timer)
    (w : World) :
  opens c = true → suspended c cont log w →
  (∃ t, t ∈ l ∧ task t = ActivateIfPossible) →
  resumed c cont log (foldl (λ w x, run_task (task x) w) w l).
Proof.
  intros Hopen. revert w. induction l as [|t l IH]; intros w Hs (u & Hin & Hu).
  { by apply elem_of_nil in Hin. }
  simpl. pose proof (suspended_task c cont log (task t) w Hopen Hs) as Ht.
  case_decide as Hk.
  - apply tasks_preserve; [apply resumed_task|done].
  - apply IH; [done|]. exists u. split; [|done].
    apply elem_of_cons in Hin as [->|Hin]; [congruence|done].
Qed.

(** X15.  With [backgroundScan] off, a page that stops being visible
    suspends an active scanner at once: the machine goes to [inactive],
    the loop is switched off, the camera is stopped and one [inactive] is
    emitted.  When the page is visible again the scanner resumes by
    itself, not in the listener but in the timer the listener sets: once
    that timer has run the machine is back in [active] on the same camera,
    started again, and the loop runs if continuous mode is set. *)
Theorem hidden_page_suspends_and_resumes (w : World) (c : Camera) (v : VisibilityState)
    (dt : nat) :
  current w = active → _camera w = Some c → opens c = true →
  backgroundScan w = false → v ≠ visible →
  current (step (VisibilityChange v) w) = inactive
  ∧ _active (_scanner (step (VisibilityChange v) w)) = false
  ∧ cameraLog (step (VisibilityChange v) w) = cameraLog w ++ [CameraStop (camId c)]
  ∧ emitted (step (VisibilityChange v) w) = emitted w ++ [inactive_event]
  ∧ current (run [VisibilityChange v; VisibilityChange visible] w) = inactive
  ∧ current (run [VisibilityChange v; VisibilityChange visible; Elapse dt] w) = active
  ∧ cameraLog (run [VisibilityChange v; VisibilityChange visible; Elapse dt] w)
    = cameraLog w ++ [CameraStop (camId c); CameraStart (camId c)]
  ∧ _active (_scanner (run [VisibilityChange v; VisibilityChange visible; Elapse dt] w))
    = _continuous w.
Proof.
  intros Hcur Hcam Hopen Hbg Hv.
  assert (step (VisibilityChange v) w
          = enter_state inactive (emit_inactive (_disableScan (set_visibility v w)))) as E.
  { simpl. unfold on_visibility. rewrite decide_False by done.
    rewrite can_deactivate_eq. simpl. rewrite Hbg, Hcur. simpl.
    rewrite fsm_deactivate_eq. simpl. by rewrite Hcur. }
  rewrite (disableScan_with_camera c) in E by done.
  assert (run [VisibilityChange v; VisibilityChange visible; Elapse dt] w
          = step (Elapse dt) (step (VisibilityChange visible) (step (VisibilityChange v) w)))
    as -> by done.
  assert (run [VisibilityChange v; VisibilityChange visible] w
          = step (VisibilityChange visible) (step (VisibilityChange v) w)) as -> by done.
  assert (suspended c (_continuous w) (cameraLog w ++ [CameraStop (camId c)])
            (set_visibility visible (step (VisibilityChange v) w))) as Hsus
    by (by rewrite E).
  assert (current (step (VisibilityChange v) w) = inactive
          ∧ _active (_scanner (step (VisibilityChange v) w)) = false
          ∧ cameraLog (step (VisibilityChange v) w) = cameraLog w ++ [CameraStop (camId c)]
          ∧ emitted (step (VisibilityChange v) w) = emitted w ++ [inactive_event])
    as (? & ? & ? & ?) by (by rewrite E).
  remember (step (VisibilityChange v) w) as w1 eqn:E1. clear E E1.
  split; [done|]. split; [done|]. split; [done|]. split; [done|].
  assert (step (VisibilityChange visible) w1
          = snd (setTimeout ActivateIfPossible 0 (set_visibility visible w1))) as ->.
  { simpl. unfold on_visibility. by rewrite decide_True. }
  split; [done|].
  assert (resumed c (_continuous w) (cameraLog w ++ [CameraStop (camId c)])
            (step (Elapse dt)
               (snd (setTimeout ActivateIfPossible 0 (set_visibility visible w1)))))
    as (_ & _ & _ & ? & Hlog & ? & _).
  { simpl. unfold elapse. apply suspended_tasks; [done|done|].
    eexists (Build_Timer _ _ ActivateIfPossible). split; [|reflexivity].
    rewrite by_due_perm. apply list_elem_of_filter. split; [|apply elem_of_app; right; left].
    simpl. lia. }
  split; [done|]. split; [|done]. by rewrite Hlog, <- app_assoc.
Qed.

Lemma hidden_page_suspends_and_resumes_witness :
  current (run [VisibilityChange hidden; VisibilityChange visible; Elapse 0]
             (run [SetBackgroundScan false; Start (Some front_camera)]
                  (scanner_on no_opts visible (always "ABC")))) = active.
Proof.
  refine (proj1 (proj2 (proj2 (proj2 (proj2 (proj2
            (hidden_page_suspends_and_resumes
               (run [SetBackgroundScan false; Start (Some front_camera)]
                    (scanner_on no_opts visible (always "ABC")))
               front_camera hidden 0 eq_refl eq_refl eq_refl eq_refl _))))))).
  discriminate.
Defined.
